(** * VaporSur serial plotter: the telemetry core of [UI/pc_plotter.py]

    A shallow embedding of the line parser ([SerialReader.parse_data]), the
    serial read loop ([SerialReader.run]), the circular sample store and its
    gap synthesis ([PlotterApp.receive_data], [PlotterApp.update_plots]) and
    the status severity rule ([PlotterApp.update_label_styles]).

    Conventions of the embedding.
    - A Python [str] is a list of Unicode code points.
    - A Python [float] (and a [numpy.float32] cell) is an exact rational:
      the rounding of binary floating point is outside the model.
    - A Python call that may raise returns a [pyres]; [try]/[except] is
      written out with [catch].
    - [time.time()] and the outcome of the drawing calls are inputs. *)

From Stdlib Require Import QArith Qround Lqa ZArith NArith Ascii String Lia.
From stdpp Require Import base list gmap strings.

Local Open Scope nat_scope.

(** ** Python strings *)

Definition char := N.
Definition str := list char.

(** An ASCII literal of the source, as code points. *)
Definition lit (s : string) : str := N_of_ascii <$> list_ascii_of_string s.

(** One ASCII character of the source, as a code point. *)
Definition ch (a : ascii) : char := N_of_ascii a.

Definition chr_eqb (a b : char) : bool := N.eqb a b.

(** [s.startswith(l)], returning what follows the prefix. *)
Fixpoint strip_prefix (l s : str) : option str :=
  match l with
  | [] => Some s
  | a :: l' =>
      match s with
      | [] => None
      | b :: s' => if chr_eqb a b then strip_prefix l' s' else None
      end
  end.

(** Python's [w in s] on strings: [w] occurs in [s] as a contiguous run. *)
Fixpoint str_in (w s : str) : bool :=
  match strip_prefix w s with
  | Some _ => true
  | None =>
      match s with
      | [] => false
      | _ :: s' => str_in w s'
      end
  end.

(** ** Results of Python calls *)

Inductive exn := ValueError | IndexError.

Inductive pyres (A : Type) :=
  | Ret (a : A)
  | Raise (e : exn).
Arguments Ret {A} a.
Arguments Raise {A} e.

#[global] Instance pyres_ret : MRet pyres := @Ret.

#[global] Instance pyres_bind : MBind pyres := fun A B k m =>
  match m with
  | Ret a => k a
  | Raise e => Raise e
  end.

Definition exn_eqb (a b : exn) : bool :=
  match a, b with
  | ValueError, ValueError | IndexError, IndexError => true
  | _, _ => false
  end.

(** [try: body / except e: handler]. *)
Definition catch {A} (body : pyres A) (e : exn) (handler : pyres A) : pyres A :=
  match body with
  | Ret a => Ret a
  | Raise e' => if exn_eqb e e' then handler else Raise e'
  end.

(** ** Character classes

    For a code point below 128 the classes of [re] and of [str.strip] are
    written out.  Above, they are rows of Python's Unicode database, which is
    not part of the repository: the three rows the code consults are a
    parameter. *)

Record UnicodeData := {
  uni_isalnum : char -> bool;
  uni_isspace : char -> bool;
  uni_todecimal : char -> option N
}.

(** The database with no entry above 127. *)
Definition ascii_only : UnicodeData :=
  {| uni_isalnum := fun _ => false;
     uni_isspace := fun _ => false;
     uni_todecimal := fun _ => None |}.

Definition between (lo hi c : N) : bool := (N.leb lo c && N.leb c hi)%bool.

Local Open Scope N_scope.

Section Classes.
Context (U : UnicodeData).

(** [Py_UNICODE_TODECIMAL]. *)
Definition todecimal (c : char) : option N :=
  if N.ltb c 128%N then
    if between (ch "0") (ch "9") c then Some (c - ch "0")%N else None
  else uni_todecimal U c.

(** [\d] *)
Definition re_d (c : char) : bool :=
  match todecimal c with Some _ => true | None => false end.

(** [\w]: alphanumeric or underscore. *)
Definition re_w (c : char) : bool :=
  if N.ltb c 128%N then
    (between (ch "0") (ch "9") c || between (ch "A") (ch "Z") c
     || between (ch "a") (ch "z") c || chr_eqb c (ch "_"))%bool
  else (uni_isalnum U c || chr_eqb c (ch "_"))%bool.

(** [\s], also the set removed by [str.strip()]. *)
Definition re_s (c : char) : bool :=
  if N.ltb c 128%N then
    (between 9 13 c || between 28 31 c || chr_eqb c (ch " "))%bool
  else uni_isspace U c.

(** [[\d.-]] *)
Definition cls_num (c : char) : bool :=
  (re_d c || chr_eqb c (ch ".") || chr_eqb c (ch "-"))%bool.

(** [[\w\s:]] *)
Definition cls_estado (c : char) : bool :=
  (re_w c || re_s c || chr_eqb c (ch ":"))%bool.
End Classes.

Local Close Scope N_scope.

(** ** The fragment of [re] that [patron] uses

    [patron] is a concatenation of literals and capturing groups of the form
    [(class+)].  [match_here] is the backtracking matcher anchored at the
    head of the text: a group first takes the longest run of its class and
    gives characters back one at a time while the rest of the pattern fails.
    It returns the captures and the unmatched remainder. *)

Inductive item :=
  | Lit (l : str)
  | Group (cls : char -> bool).

Fixpoint run_length (cls : char -> bool) (s : str) : nat :=
  match s with
  | c :: s' => if cls c then S (run_length cls s') else 0
  | [] => 0
  end.

Fixpoint backtrack (k : str -> option (list str * str)) (s : str) (n : nat)
  : option (list str * str) :=
  match n with
  | 0 => None
  | S n' =>
      match k (drop n s) with
      | Some (caps, rest) => Some (take n s :: caps, rest)
      | None => backtrack k s n'
      end
  end.

Fixpoint match_here (items : list item) (s : str) : option (list str * str) :=
  match items with
  | [] => Some ([], s)
  | Lit l :: items' =>
      match strip_prefix l s with
      | Some s' => match_here items' s'
      | None => None
      end
  | Group cls :: items' =>
      backtrack (match_here items') s (run_length cls s)
  end.

(** [re.search]: the match at the leftmost position that has one. *)
Fixpoint re_search (items : list item) (s : str) : option (list str) :=
  match match_here items s with
  | Some (caps, _) => Some caps
  | None =>
      match s with
      | [] => None
      | _ :: s' => re_search items s'
      end
  end.

(** [match.group(i)], [i >= 1]. *)
Definition group (caps : list str) (i : nat) : pyres str :=
  match caps !! (i - 1) with
  | Some g => Ret g
  | None => Raise IndexError
  end.

(** ** [float()] on a capture of [[\d.-]+]

    Over the alphabet of the numeric groups (decimal digits, [.], [-]) a text
    is a float literal when it is an optional [-], then digits with an
    optional [.] and more digits, with a digit on at least one side of the
    point.  Everything else over that alphabet is a [ValueError].  The forms
    of [float()] that need other characters (exponent, [+], whitespace,
    underscores, [inf], [nan]) cannot reach it from [parse_data]. *)

Section Float.
Context (U : UnicodeData).

(** The leading decimal digits of [s], as values, and what follows. *)
Fixpoint span_digits (s : str) : list N * str :=
  match s with
  | [] => ([], [])
  | c :: s' =>
      match todecimal U c with
      | Some d => let '(ds, rest) := span_digits s' in (d :: ds, rest)
      | None => ([], s)
      end
  end.

Definition digits_value (ds : list N) : N :=
  fold_left (fun acc d => (10 * acc + d)%N) ds 0%N.

Fixpoint pow10 (n : nat) : positive :=
  match n with
  | 0 => 1%positive
  | S n' => (10 * pow10 n')%positive
  end.

(** The value of [-]? [ip] [.] [fp]. *)
Definition decimal_value (neg : bool) (ip fp : list N) : Q :=
  let m := Z.of_N (digits_value (ip ++ fp)) in
  Qmake (if neg then (- m)%Z else m) (pow10 (length fp)).

Definition is_nil {A} (l : list A) : bool :=
  match l with [] => true | _ => false end.

Definition py_float (s : str) : pyres Q :=
  let '(neg, body) :=
    match s with
    | c :: r => if chr_eqb c (ch "-") then (true, r) else (false, s)
    | [] => (false, [])
    end in
  let '(ip, rest) := span_digits body in
  match rest with
  | [] => if is_nil ip then Raise ValueError else Ret (decimal_value neg ip [])
  | c :: r =>
      if chr_eqb c (ch ".") then
        let '(fp, rest') := span_digits r in
        if (is_nil rest' && negb (is_nil ip && is_nil fp))%bool
        then Ret (decimal_value neg ip fp)
        else Raise ValueError
      else Raise ValueError
  end.
End Float.

(** ** [SerialReader.parse_data] *)

(** The dictionary that [parse_data] returns: its keys are fixed. *)
Record Data := {
  P : Q; T : Q; MV : Q; SH : Q;
  F : str; M : str; ESD : str; ESTADO : str; RELIEF : str; PURGE : str
}.

Section Parser.
Context (U : UnicodeData).

Definition patron : list item :=
  [ Lit (lit "P:"); Group (cls_num U);
    Lit (lit ",T:"); Group (cls_num U);
    Lit (lit ",MV:"); Group (cls_num U);
    Lit (lit ",SH:"); Group (cls_num U);
    Lit (lit ",F:"); Group (re_w U);
    Lit (lit ",M:"); Group (re_w U);
    Lit (lit ",ESD:"); Group (re_w U);
    Lit (lit ",ESTADO:"); Group (cls_estado U);
    Lit (lit ",RELIEF:"); Group (re_w U);
    Lit (lit ",PURGE:"); Group (re_w U) ].

(** The dictionary display of lines 98-109; its entries are evaluated in
    order, so the first failing [float()] decides. *)
Definition build_data (m : list str) : pyres Data :=
  p ← group m 1 ≫= py_float U;
  t ← group m 2 ≫= py_float U;
  mv ← group m 3 ≫= py_float U;
  sh ← group m 4 ≫= py_float U;
  f ← group m 5;
  mo ← group m 6;
  esd ← group m 7;
  estado ← group m 8;
  relief ← group m 9;
  purge ← group m 10;
  mret {| P := p; T := t; MV := mv; SH := sh; F := f; M := mo; ESD := esd;
          ESTADO := estado; RELIEF := relief; PURGE := purge |}.

Definition parse_data (line : str) : pyres (option Data) :=
  match re_search patron line with
  | Some m => catch (d ← build_data m; mret (Some d)) ValueError (Ret None)
  | None => Ret None
  end.

(** [str.strip()] *)
Fixpoint lstrip (s : str) : str :=
  match s with
  | c :: s' => if re_s U c then lstrip s' else s
  | [] => []
  end.

Definition strip (s : str) : str := reverse (lstrip (reverse (lstrip s))).
End Parser.

(** ** [SerialReader.run]

    The thread object keeps [running] and the port [ser]; of the port the
    model keeps whether it is open.  What [read_until] does on each pass of the
    loop is an input: it returns bytes, given here as the text that
    [decode('utf-8', errors='ignore')] makes of them, or it raises
    [serial.SerialException], or something in the [try] block raises another
    exception. *)

Record SerialReader := {
  running : bool;
  ser_is_open : bool
}.

(** [__init__], by whether [serial.Serial(port, 115200, timeout=1)] opened. *)
Definition SerialReader_init (opened : bool) : SerialReader :=
  {| running := opened; ser_is_open := opened |}.

Inductive read_outcome :=
  | ReadText (text : str)
  | ReadSerialException
  | ReadException.

Section Reader.
Context (U : UnicodeData).

(** One pass of lines 68-74: the [data_received] signals emitted.  An
    exception out of [parse_data] would be caught at line 83, which goes on
    with the loop. *)
Definition handle_text (text : str) : list Data :=
  let line := strip U text in
  if is_nil line then []
  else
    match parse_data U line with
    | Ret (Some data) => [data]
    | Ret None => []
    | Raise _ => []
    end.

(** The [while self.running] loop over the outcomes of successive reads.
    It returns the reader, the signals emitted in order, and the outcomes
    it never asked for. *)
Fixpoint run_loop (reads : list read_outcome) (self : SerialReader)
  : SerialReader * list Data * list read_outcome :=
  match reads with
  | [] => (self, [], [])
  | r :: reads' =>
      if running self then
        match r with
        | ReadText text =>
            let '(self', emitted, rest) := run_loop reads' self in
            (self', handle_text text ++ emitted, rest)
        | ReadSerialException =>
            run_loop reads'
              {| running := false; ser_is_open := ser_is_open self |}
        | ReadException => run_loop reads' self
        end
      else (self, [], reads)
  end.

Definition run (reads : list read_outcome) (self : SerialReader)
  : SerialReader * list Data * list read_outcome :=
  if negb (running self) then (self, [], reads) else run_loop reads self.
End Reader.

(** [stop]: the port is closed if it is there and open. *)
Definition stop (self : SerialReader) : SerialReader :=
  {| running := false;
     ser_is_open := if ser_is_open self then false else ser_is_open self |}.

(** ** The circular store of [PlotterApp] *)

Definition MAX_POINTS : nat := 200.
Definition GUI_UPDATE_INTERVAL_MS : Q := 50.
Definition DATA_COLLECTION_INTERVAL_MS : Q := 100.

(** [interval_s = DATA_COLLECTION_INTERVAL_MS / 1000.0] *)
Definition interval_s : Q := DATA_COLLECTION_INTERVAL_MS / 1000.

Record PlotterApp := {
  first_data_time : option Q;
  x_data : list Q;
  y1_data : list Q;
  y2_data : list Q;
  data_index : nat;
  last_p : option Q;
  last_t : option Q;
  last_update_time : option Q;
  plot_dirty : bool
}.

(** The fields as [__init__] leaves them (lines 178-188). *)
Definition PlotterApp_init : PlotterApp :=
  {| first_data_time := None;
     x_data := replicate MAX_POINTS 0%Q;
     y1_data := replicate MAX_POINTS 0%Q;
     y2_data := replicate MAX_POINTS 0%Q;
     data_index := 0;
     last_p := None;
     last_t := None;
     last_update_time := None;
     plot_dirty := false |}.

(** One write to the three arrays: relative time, pressure, temperature. *)
Definition Sample : Type := Q * Q * Q.

Definition sample_time (s : Sample) : Q := s.1.1.
Definition sample_p (s : Sample) : Q := s.1.2.
Definition sample_t (s : Sample) : Q := s.2.

(** [receive_data], with the reading of [time.time()] at line 235.  Beside
    the new fields it returns the sample it wrote.  The label updates of
    line 232 catch their own exceptions and touch no field kept here. *)
Definition receive_data (current_real : Q) (data : Data) (self : PlotterApp)
  : PlotterApp * list Sample :=
  let first :=
    match first_data_time self with
    | None => current_real
    | Some f => f
    end in
  let graph_t := (current_real - first)%Q in
  let p := P data in
  let t := T data in
  let idx := data_index self mod MAX_POINTS in
  ({| first_data_time := Some first;
      x_data := <[idx := graph_t]> (x_data self);
      y1_data := <[idx := p]> (y1_data self);
      y2_data := <[idx := t]> (y2_data self);
      data_index := data_index self + 1;
      last_p := Some p;
      last_t := Some t;
      last_update_time := Some current_real;
      plot_dirty := true |},
   [(graph_t, p, t)]).

(** The [while expected_next <= current_real] loop of lines 270-280.  The
    body reads [self.first_data_time], [self.last_p] and [self.last_t] and
    assigns none of them: they are [first], [p] and [t].  It returns the
    fields, [added_dummy] and the samples written, oldest first.  [fuel]
    bounds the passes; with [dummy_fuel] the loop ends on its own test and
    more fuel changes nothing ([passes_exit], [dummy_loop_fuel]). *)
Fixpoint dummy_loop (fuel : nat) (current_real first p t : Q)
    (expected_next : Q) (added_dummy : bool) (self : PlotterApp)
  : PlotterApp * bool * list Sample :=
  match fuel with
  | 0 => (self, added_dummy, [])
  | S fuel' =>
      if Qle_bool expected_next current_real then
        let graph_t_dummy := (expected_next - first)%Q in
        let idx := data_index self mod MAX_POINTS in
        let self' :=
          {| first_data_time := first_data_time self;
             x_data := <[idx := graph_t_dummy]> (x_data self);
             y1_data := <[idx := p]> (y1_data self);
             y2_data := <[idx := t]> (y2_data self);
             data_index := data_index self + 1;
             last_p := last_p self;
             last_t := last_t self;
             last_update_time := Some expected_next;
             plot_dirty := plot_dirty self |} in
        let '(self'', added, written) :=
          dummy_loop fuel' current_real first p t
            (expected_next + interval_s)%Q true self' in
        (self'', added, (graph_t_dummy, p, t) :: written)
      else (self, added_dummy, [])
  end.

(** Passes the loop can make: one per whole interval between
    [expected_next] and [current_real], and the first. *)
Definition dummy_fuel (current_real expected_next : Q) : nat :=
  S (Z.to_nat (Qfloor ((current_real - expected_next) / interval_s))).

(** Lines 265-280.  [last_t] is assigned together with [last_p] (lines
    251-252), so it is set whenever the guard holds; the arrays hold
    rationals, and the model writes 0 for the [None] that cannot occur. *)
Definition gap_synthesis (current_real : Q) (self : PlotterApp)
  : PlotterApp * bool * list Sample :=
  match first_data_time self, last_update_time self, last_p self with
  | Some first, Some last_update, Some p =>
      let expected_next := (last_update + interval_s)%Q in
      dummy_loop (dummy_fuel current_real expected_next) current_real
        first p (default 0%Q (last_t self)) expected_next false self
  | _, _, _ => (self, false, [])
  end.

(** Lines 285-302: the series handed to the two lines of the plot, or [None]
    for the [return] of line 288. *)
Definition snapshot (self : PlotterApp)
  : option (list Q * list Q * list Q) :=
  let n_points := data_index self `min` MAX_POINTS in
  if n_points =? 0 then None
  else if n_points <? MAX_POINTS then
    Some (take n_points (x_data self),
          take n_points (y1_data self),
          take n_points (y2_data self))
  else
    let start_idx := data_index self mod MAX_POINTS in
    Some (drop start_idx (x_data self) ++ take start_idx (x_data self),
          drop start_idx (y1_data self) ++ take start_idx (y1_data self),
          drop start_idx (y2_data self) ++ take start_idx (y2_data self)).

(** What one tick does to the canvas. *)
Inductive redraw :=
  | NoRedraw
  | Redraw (x y1 y2 : list Q) (xlim : option (Q * Q))
  | RedrawFailed.

(** Lines 309-314. *)
Definition x_limits (x : list Q) : option (Q * Q) :=
  match head x, last x with
  | Some xmin, Some xlast => Some (xmin, (xlast + interval_s * 2)%Q)
  | _, _ => None
  end.

(** [update_plots], with the reading of [time.time()] at line 267 and with
    whether the drawing calls of lines 305-316 return ([draw_ok]) or raise
    into the [except] of line 319. *)
Definition update_plots (current_real : Q) (draw_ok : bool) (self : PlotterApp)
  : PlotterApp * redraw * list Sample :=
  let '(self, added_dummy, written) := gap_synthesis current_real self in
  if (plot_dirty self || added_dummy)%bool then
    match snapshot self with
    | None => (self, NoRedraw, written)
    | Some (x, y1, y2) =>
        if draw_ok then
          ({| first_data_time := first_data_time self;
              x_data := x_data self;
              y1_data := y1_data self;
              y2_data := y2_data self;
              data_index := data_index self;
              last_p := last_p self;
              last_t := last_t self;
              last_update_time := last_update_time self;
              plot_dirty := false |},
           Redraw x y1 y2 (x_limits x), written)
        else (self, RedrawFailed, written)
    end
  else (self, NoRedraw, written).

(** ** Runs: the signals and timer ticks the main thread handles, in order *)

Inductive event :=
  | Receive (current_real : Q) (data : Data)
  | Tick (current_real : Q) (draw_ok : bool).

Definition event_time (e : event) : Q :=
  match e with
  | Receive now _ => now
  | Tick now _ => now
  end.

Definition step (e : event) (self : PlotterApp) : PlotterApp * list Sample :=
  match e with
  | Receive now data => receive_data now data self
  | Tick now draw_ok =>
      let '(self', _, written) := update_plots now draw_ok self in
      (self', written)
  end.

(** The fields after the events and every sample written, oldest first. *)
Fixpoint run_events (evs : list event) (self : PlotterApp)
  : PlotterApp * list Sample :=
  match evs with
  | [] => (self, [])
  | e :: evs' =>
      let '(self', w) := step e self in
      let '(self'', ws) := run_events evs' self' in
      (self'', w ++ ws)
  end.

(** ** [update_label_styles]: the background of the two styled labels *)

Inductive background := red | green | orange | lightgreen.

Definition str_eqb (a b : str) : bool := bool_decide (a = b).

Definition critical_words : list str :=
  [lit "Alivio"; lit "Purga"; lit "Emergencia"].

(** The second word is [Recuperación]; its [ó] is U+00F3. *)
Definition warning_words : list str :=
  [lit "Advertencia"; lit "Recuperaci" ++ [243%N] ++ lit "n";
   lit "Precalentamiento"].

Definition esd_background (esd : str) : background :=
  if str_eqb esd (lit "Activado") then red else green.

Definition status_background (estado : str) : background :=
  if existsb (fun word => str_in word estado) critical_words then red
  else if existsb (fun word => str_in word estado) warning_words then orange
  else lightgreen.

Definition update_label_styles (esd estado : str) : background * background :=
  (esd_background esd, status_background estado).

(** The tier a status background stands for. *)
Inductive severity := critical | warning | nominal.

Definition severity_of (b : background) : severity :=
  match b with
  | red => critical
  | orange => warning
  | green | lightgreen => nominal
  end.

Definition classify (estado : str) : severity :=
  severity_of (status_background estado).

(** ** The wire grammar, stated on its own

    [Inst items caps m]: the text [m] is an instance of the pattern [items]
    whose groups read [caps].  A literal stands for itself and a group for a
    non-empty run of its class. *)

Inductive Inst : list item -> list str -> str -> Prop :=
  | Inst_nil : Inst [] [] []
  | Inst_lit l items caps m :
      Inst items caps m -> Inst (Lit l :: items) caps (l ++ m)
  | Inst_group cls items g caps m :
      g <> [] -> Forall (fun c => cls c = true) g ->
      Inst items caps m -> Inst (Group cls :: items) (g :: caps) (g ++ m).

(** Every group but the last is followed by a literal whose first character
    is outside the group's class. *)
Fixpoint delimited (items : list item) : Prop :=
  match items with
  | Group cls :: rest =>
      match rest with
      | [] => True
      | Lit (c :: _) :: _ => cls c = false /\ delimited rest
      | _ => False
      end
  | Lit _ :: rest => delimited rest
  | [] => True
  end.

(** The ten-field line [P:..,T:..,MV:..,SH:..,F:..,M:..,ESD:..,ESTADO:..,
    RELIEF:..,PURGE:..] with the given field texts. *)
Definition wire_line (p t mv sh f m esd estado relief purge : str) : str :=
  lit "P:" ++ p ++ lit ",T:" ++ t ++ lit ",MV:" ++ mv ++ lit ",SH:" ++ sh
  ++ lit ",F:" ++ f ++ lit ",M:" ++ m ++ lit ",ESD:" ++ esd
  ++ lit ",ESTADO:" ++ estado ++ lit ",RELIEF:" ++ relief
  ++ lit ",PURGE:" ++ purge.

(** A field text: a non-empty run of the class. *)
Definition field (cls : char -> bool) (s : str) : Prop :=
  (negb (is_nil s) && forallb cls s)%bool = true.


(** The line of the end-to-end example, and the same line with an eleventh
    field. *)
Definition example_line : str :=
  lit "P:300.5,T:150.2,MV:45.0,SH:10.0,F:A,M:AUTO,ESD:Normal"
  ++ lit ",ESTADO:Operando Normal,RELIEF:Cerrada,PURGE:Cerrada".

Definition example_data : Data :=
  {| P := 300.5; T := 150.2; MV := 45.0; SH := 10.0;
     F := lit "A"; M := lit "AUTO"; ESD := lit "Normal";
     ESTADO := lit "Operando Normal";
     RELIEF := lit "Cerrada"; PURGE := lit "Cerrada" |}.


(** [w] occurs in [s]. *)
Definition occurs (w s : str) : Prop := exists pre post, s = pre ++ w ++ post.

(** Some word of [ws] occurs in [s]. *)
Definition has_word (ws : list str) (s : str) : Prop :=
  exists w, w ∈ ws /\ occurs w s.

Definition is_serial_exception (r : read_outcome) : bool :=
  match r with
  | ReadSerialException => true
  | _ => false
  end.

(** ** Vocabulary for the store

    The arrays and the write counter, apart from the other fields. *)

Definition Store : Type := list Q * list Q * list Q * nat.

Definition store_of (self : PlotterApp) : Store :=
  (x_data self, y1_data self, y2_data self, data_index self).

(** One write at slot [data_index mod MAX_POINTS], as both writers do it. *)
Definition push (st : Store) (smp : Sample) : Store :=
  let '(x, y1, y2, w) := st in
  let idx := w mod MAX_POINTS in
  (<[idx := sample_time smp]> x, <[idx := sample_p smp]> y1,
   <[idx := sample_t smp]> y2, w + 1).

(** [h] is every sample written so far, oldest first: the counter is its
    length and the slot of each of the last [MAX_POINTS] writes still holds
    it. *)
Definition Stored (st : Store) (h : list Sample) : Prop :=
  let '(x, y1, y2, w) := st in
  length x = MAX_POINTS /\ length y1 = MAX_POINTS /\ length y2 = MAX_POINTS
  /\ w = length h
  /\ forall i smp, h !! i = Some smp -> length h <= i + MAX_POINTS ->
       x !! (i mod MAX_POINTS) = Some (sample_time smp)
       /\ y1 !! (i mod MAX_POINTS) = Some (sample_p smp)
       /\ y2 !! (i mod MAX_POINTS) = Some (sample_t smp).

(** The last [MAX_POINTS] writes, all of them while there are fewer. *)
Definition newest (h : list Sample) : list Sample :=
  drop (length h - MAX_POINTS) h.

(** The three series of a list of samples. *)
Definition series (h : list Sample) : list Q * list Q * list Q :=
  (sample_time <$> h, sample_p <$> h, sample_t <$> h).

(** Strictly increasing, and above [lo] when there is one. *)
Fixpoint ascending (lo : option Q) (l : list Q) : Prop :=
  match l with
  | [] => True
  | x :: l' =>
      match lo with
      | Some a => (a < x)%Q
      | None => True
      end /\ ascending (Some x) l'
  end.

(** The values [expected_next] takes in [n] passes of the loop from [e]. *)
Fixpoint iter_times (n : nat) (e : Q) : list Q :=
  match n with
  | 0 => []
  | S n' => e :: iter_times n' (e + interval_s)%Q
  end.

(** The passes the loop makes. *)
Fixpoint passes (fuel : nat) (current_real expected_next : Q) : nat :=
  match fuel with
  | 0 => 0
  | S fuel' =>
      if Qle_bool expected_next current_real
      then S (passes fuel' current_real (expected_next + interval_s)%Q)
      else 0
  end.

(** The synthetic samples for the expected times [es]. *)
Definition dummies (first p t : Q) (es : list Q) : list Sample :=
  (fun e => ((e - first)%Q, p, t)) <$> es.

Definition Qnat (n : nat) : Q := inject_Z (Z.of_nat n).

(** The data of the latest [Receive], the reading of the earliest. *)
Fixpoint last_real (evs : list event) : option Data :=
  match evs with
  | [] => None
  | e :: evs' =>
      match last_real evs' with
      | Some d => Some d
      | None => match e with Receive _ d => Some d | Tick _ _ => None end
      end
  end.

Fixpoint first_real_time (evs : list event) : option Q :=
  match evs with
  | [] => None
  | Receive now _ :: _ => Some now
  | Tick _ _ :: evs' => first_real_time evs'
  end.

(** A record with the given pressure and temperature. *)
Definition reading (p t : Q) : Data :=
  {| P := p; T := t; MV := 0; SH := 0; F := []; M := []; ESD := [];
     ESTADO := []; RELIEF := []; PURGE := [] |}.

(** [x] after [n] additions of the interval, as the loop adds them. *)
Definition advance (n : nat) (x : Q) : Q :=
  Nat.iter n (fun e => (e + interval_s)%Q) x.

(** The relative time of the latest write. *)
Definition last_time (self : PlotterApp) : option Q :=
  match first_data_time self, last_update_time self with
  | Some f, Some lu => Some (lu - f)%Q
  | _, _ => None
  end.

(** The timing fields are unset together, or set with the latest update no
    later than the latest clock reading [lo]. *)
Definition Timed (self : PlotterApp) (lo : option Q) : Prop :=
  match first_data_time self, last_update_time self, last_p self with
  | Some f, Some lu, Some p =>
      match lo with
      | Some b => (lu <= b)%Q
      | None => False
      end
  | None, None, None => True
  | _, _, _ => False
  end.



(** Before the first sample nothing is set and nothing is written; after
    it the anchor, the latest update and the held values are all set. *)
Definition Sound (self : PlotterApp) : Prop :=
  (first_data_time self = None /\ last_update_time self = None
   /\ last_p self = None /\ last_t self = None
   /\ plot_dirty self = false /\ data_index self = 0)
  \/ (is_Some (first_data_time self) /\ is_Some (last_update_time self)
      /\ is_Some (last_p self) /\ is_Some (last_t self)
      /\ 0 < data_index self).

Definition prefill_run : list event :=
  [Receive 10 (reading 300 150); Tick 10.05 true; Tick 10.35 true].

(** A timer tick handled no later than [now]. *)
Definition tick_before (now : Q) (e : event) : bool :=
  match e with
  | Tick current_real _ => Qle_bool current_real now
  | Receive _ _ => false
  end.

(** The expected times [from] .. [from + n - 1] intervals after [lu]. *)
Definition chain (lu : Q) (from n : nat) : list Q :=
  (fun k => advance k lu) <$> seq from n.

(** A store that has just received one sample at 10 s, and ticks of the
    next 0.3 s, one of which fails to draw. *)
Definition fed_store : PlotterApp :=
  (run_events [Receive 10 (reading 300 150)] PlotterApp_init).1.

Definition early_ticks : list event :=
  [Tick 10.05 true; Tick 10.1 true; Tick 10.15 false; Tick 10.3 true].

(** A store that has drawn its only sample. *)
Definition drawn_store : PlotterApp :=
  (run_events [Receive 10 (reading 300 150); Tick 10.05 true]
              PlotterApp_init).1.

(** ** Vocabulary for the parser and the reader *)

(** The last item of the pattern is a literal, or a group whose class does
    not hold [c]. *)
Fixpoint ends_outside (c : char) (items : list item) : Prop :=
  match items with
  | [] => True
  | it :: rest =>
      match rest with
      | [] => match it with Group cls => cls c = false | Lit _ => True end
      | _ :: _ => ends_outside c rest
      end
  end.

(** What follows the line: nothing, or text that starts outside [\w]. *)
Definition outside_word (U : UnicodeData) (post : str) : bool :=
  match post with
  | [] => true
  | c :: _ => negb (re_w U c)
  end.

(** The ASCII digit of a value below ten. *)
Definition digit_char (d : N) : char := (ch "0" + d)%N.

Definition digits (ds : list N) : bool := forallb (fun d => N.ltb d 10) ds.

(** Nowhere decreasing, and not below [lo] when there is one. *)
Fixpoint nondecreasing (lo : option Q) (l : list Q) : Prop :=
  match l with
  | [] => True
  | x :: l' =>
      match lo with
      | Some a => (a <= x)%Q
      | None => True
      end /\ nondecreasing (Some x) l'
  end.

(** The earliest [Receive] of a run. *)
Fixpoint first_real (evs : list event) : option (Q * Data) :=
  match evs with
  | [] => None
  | Receive now d :: _ => Some (now, d)
  | Tick _ _ :: evs' => first_real evs'
  end.

(** ** [time_formatter] and [update_time_label]: the clock as [mm:ss]

    [int(x)] of a float cuts the fraction off; [//] and [%] by 60 are the
    floored quotient and its remainder.  The format [02d] writes the decimal
    digits of an integer, after a [-] if it is negative, and fills with
    zeros in front up to two characters. *)

(** The decimal digits of [n], most significant first, in front of [acc]. *)
Fixpoint decimal_fuel (fuel : nat) (n : N) (acc : list N) : list N :=
  match fuel with
  | 0 => acc
  | S fuel' =>
      let acc' := (n mod 10)%N :: acc in
      if (n / 10 =? 0)%N then acc' else decimal_fuel fuel' (n / 10)%N acc'
  end.

(** A number has no more decimal digits than binary ones. *)
Definition decimal (n : N) : list N :=
  decimal_fuel (S (N.to_nat (N.log2 n))) n [].

Definition format_02d (z : Z) : str :=
  if (z <? 0)%Z then ch "-" :: (digit_char <$> decimal (Z.to_N (- z)))
  else
    let ds := decimal (Z.to_N z) in
    replicate (2 - length ds) (ch "0") ++ (digit_char <$> ds).

(** [int(x)] *)
Definition py_int (x : Q) : Z := Z.quot (Qnum x) (Z.pos (Qden x)).

(** Lines 165-170; the tick position [pos] is not used. *)
Definition time_formatter (x : Q) : str :=
  let total_seconds := py_int x in
  let minutes := (total_seconds / 60)%Z in
  let seconds := (total_seconds mod 60)%Z in
  format_02d minutes ++ lit ":" ++ format_02d seconds.

(** Lines 324-325: the text of the elapsed time. *)
Definition time_str (current_real start_time : Q) : str :=
  let elapsed := py_int (current_real - start_time) in
  format_02d (elapsed / 60)%Z ++ lit ":" ++ format_02d (elapsed mod 60)%Z.

(** ** [find_port] and [start_serial]

    What opening and closing each listed port does is an input. *)

Inductive open_outcome :=
  | Opens
  | RaisesSerialException
  | RaisesOSError
  | RaisesOther.

Inductive find_result :=
  | Found (device : str)
  | NotFound
  | FindRaises.

(** Lines 217-227 over the list of [comports()]. *)
Fixpoint find_port (ports : list (str * open_outcome)) : find_result :=
  match ports with
  | [] => NotFound
  | (device, outcome) :: ports' =>
      match outcome with
      | Opens => Found device
      | RaisesSerialException | RaisesOSError => find_port ports'
      | RaisesOther => FindRaises
      end
  end.

Inductive start_result :=
  | Exits (status : nat)
  | Starts (reader : SerialReader)
  | StartRaises.

(** Lines 201-215.  [if port] fails for [None] and for an empty name.
    [SerialReader(port)] opens the port again, [opened] telling how that
    goes; it catches its own exceptions, so the [except] of line 210 is not
    reached from it. *)
Definition start_serial (ports : list (str * open_outcome)) (opened : bool)
  : start_result :=
  match find_port ports with
  | Found device =>
      if is_nil device then Exits 1 else Starts (SerialReader_init opened)
  | NotFound => Exits 1
  | FindRaises => StartRaises
  end.

Definition recoverable (o : open_outcome) : bool :=
  match o with
  | RaisesSerialException | RaisesOSError => true
  | Opens | RaisesOther => false
  end.

(** ** The labels

    [self.labels] is a dictionary from a key to a label widget, of which the
    text and the style sheet are kept.  [format(x, '.1f')] is Python's; it is
    a parameter. *)

Module Widgets.

Record QLabel := { text : str; styleSheet : str }.

(** One statement [self.labels[key].set...(v)]: the key it looks up and
    what it does to the label found. *)
Definition Op : Type := string * (QLabel -> QLabel).

Definition setText (key : string) (t : str) : Op :=
  (key, fun l => {| text := t; styleSheet := styleSheet l |}).

Definition setStyleSheet (key : string) (st : str) : Op :=
  (key, fun l => {| text := text l; styleSheet := st |}).

(** The statements in order; a missing key raises [KeyError] and the rest
    is not run.  The labels as they are left, and whether all ran. *)
Fixpoint do_all (ops : list Op) (labels : gmap string QLabel)
  : gmap string QLabel * bool :=
  match ops with
  | [] => (labels, true)
  | (key, f) :: ops' =>
      match labels !! key with
      | Some l => do_all ops' (<[key := f l]> labels)
      | None => (labels, false)
      end
  end.

Definition base_style : str :=
  lit "font-size: 14px; font-weight: bold; padding: 5px; border-radius: 5px;".

Definition label_style : str :=
  lit "font-size: 14px; font-weight: normal; color: #333333; padding: 5px;".

Definition style_of (b : background) : str :=
  match b with
  | red => lit "background-color: red; color: white;"
  | green => lit "background-color: green; color: white;"
  | orange => lit "background-color: orange; color: black;"
  | lightgreen => lit "background-color: lightgreen; color: black;"
  end.

(** Lines 351-372, on the widgets. *)
Definition update_label_styles (esd estado : str) : list Op :=
  [ setStyleSheet "esd" (base_style ++ style_of (esd_background esd));
    setStyleSheet "status"
      (base_style ++ style_of (status_background estado)) ]
  ++ ((fun key => setStyleSheet key label_style)
        <$> ["mode"; "flow"; "values"; "relief"; "purge"]%string).

Section Format.
Context (format_1f : Q -> str).

(** Line 336; the degree sign is U+00B0. *)
Definition new_values_text (data : Data) : str :=
  lit "P: " ++ format_1f (P data) ++ lit " kPa | T: " ++ format_1f (T data)
  ++ lit " " ++ [176%N] ++ lit "C | MV: " ++ format_1f (MV data)
  ++ lit "% | SH: " ++ format_1f (SH data) ++ lit "%".

(** The [á] of [Válvula] is U+00E1. *)
Definition valvula : str := lit "V" ++ [225%N] ++ lit "lvula de ".

(** Lines 337-346. *)
Definition label_statements (data : Data) : list Op :=
  [ setText "values" (new_values_text data);
    setText "mode" (lit "Modo: " ++ M data);
    setText "flow" (lit "Flujo: " ++ F data);
    setText "esd" (lit "ESD: " ++ ESD data);
    setText "relief" (valvula ++ lit "Alivio: " ++ RELIEF data);
    setText "purge" (valvula ++ lit "Purga: " ++ PURGE data);
    setText "status" (lit "Estado del Sistema: " ++ ESTADO data) ]
  ++ update_label_styles (ESD data) (ESTADO data).

(** [update_labels_immediate]: the [except] of line 348 only prints. *)
Definition update_labels_immediate (data : Data)
    (labels : gmap string QLabel) : gmap string QLabel :=
  (do_all (label_statements data) labels).1.
End Format.

(** [update_time_label], with the reading of [time.time()] at line 324;
    [None] is the [KeyError], which nothing catches. *)
Definition update_time_label (current_real start_time : Q)
    (labels : gmap string QLabel) : option (gmap string QLabel) :=
  let '(labels', ok) :=
    do_all [setText "time" (lit "Tiempo Transcurrido: "
                            ++ time_str current_real start_time)] labels in
  if ok then Some labels' else None.

Definition labels_config : list (string * str) :=
  [ ("status" : string, lit "Estado del Sistema: Iniciando...");
    ("esd" : string, lit "ESD: --");
    ("mode" : string, lit "Modo: --");
    ("flow" : string, lit "Flujo: --");
    ("relief" : string, valvula ++ lit "Alivio: --");
    ("purge" : string, valvula ++ lit "Purga: --");
    ("values" : string,
     lit "P: -- kPa | T: -- " ++ [176%N] ++ lit "C | MV: --% | SH: --%");
    ("time" : string, lit "Tiempo Transcurrido: 00:00") ].

(** [setup_labels], on the empty dictionary of line 156. *)
Definition setup_labels : gmap string QLabel :=
  foldl (fun labels '(key, t) =>
           <[key := {| text := t; styleSheet := label_style |}]> labels)
        ∅ labels_config.

(** What the main thread does to the labels: a sample arrives, or the
    timer fires. *)
Inductive ui_event :=
  | Sample (data : Data)
  | Timer (current_real : Q).

Definition ui_step (format_1f : Q -> str) (start_time : Q) (e : ui_event)
    (labels : gmap string QLabel) : option (gmap string QLabel) :=
  match e with
  | Sample data => Some (update_labels_immediate format_1f data labels)
  | Timer current_real => update_time_label current_real start_time labels
  end.

Fixpoint run_ui (format_1f : Q -> str) (start_time : Q)
    (evs : list ui_event) (labels : gmap string QLabel)
  : option (gmap string QLabel) :=
  match evs with
  | [] => Some labels
  | e :: evs' =>
      match ui_step format_1f start_time e labels with
      | Some labels' => run_ui format_1f start_time evs' labels'
      | None => None
      end
  end.

(** What one statement list makes of the label under [k]. *)
Definition apply_ops (k : string) (ops : list Op) (l : QLabel) : QLabel :=
  foldl (fun l (op : Op) => if bool_decide (op.1 = k) then op.2 l else l)
        l ops.

(** The latest sample and the latest reading of the timer in a run. *)
Fixpoint last_sample (evs : list ui_event) : option Data :=
  match evs with
  | [] => None
  | e :: evs' =>
      match last_sample evs' with
      | Some d => Some d
      | None => match e with Sample d => Some d | Timer _ => None end
      end
  end.

Fixpoint last_timer (evs : list ui_event) : option Q :=
  match evs with
  | [] => None
  | e :: evs' =>
      match last_timer evs' with
      | Some now => Some now
      | None => match e with Timer now => Some now | Sample _ => None end
      end
  end.

Definition data_keys : list string :=
  ["values"; "mode"; "flow"; "esd"; "relief"; "purge"; "status"]%string.

End Widgets.

(** ** Vocabulary for the labels *)

Definition all_keys : list string :=
  ["status"; "esd"; "mode"; "flow"; "relief"; "purge"; "values";
   "time"]%string.

(** The dictionary holds the eight labels and nothing else. *)
Definition ready (labels : gmap string Widgets.QLabel) : Prop :=
  dom labels = list_to_set all_keys.

(** The seven labels as sample [data] leaves them. *)
Definition shown (format_1f : Q -> str) (data : Data)
  : list (string * Widgets.QLabel) :=
  [ ("values" : string,
     {| Widgets.text := Widgets.new_values_text format_1f data;
        Widgets.styleSheet := Widgets.label_style |});
    ("mode" : string,
     {| Widgets.text := lit "Modo: " ++ M data;
        Widgets.styleSheet := Widgets.label_style |});
    ("flow" : string,
     {| Widgets.text := lit "Flujo: " ++ F data;
        Widgets.styleSheet := Widgets.label_style |});
    ("esd" : string,
     {| Widgets.text := lit "ESD: " ++ ESD data;
        Widgets.styleSheet :=
          Widgets.base_style
          ++ Widgets.style_of (esd_background (ESD data)) |});
    ("relief" : string,
     {| Widgets.text := Widgets.valvula ++ lit "Alivio: " ++ RELIEF data;
        Widgets.styleSheet := Widgets.label_style |});
    ("purge" : string,
     {| Widgets.text := Widgets.valvula ++ lit "Purga: " ++ PURGE data;
        Widgets.styleSheet := Widgets.label_style |});
    ("status" : string,
     {| Widgets.text := lit "Estado del Sistema: " ++ ESTADO data;
        Widgets.styleSheet :=
          Widgets.base_style
          ++ Widgets.style_of (status_background (ESTADO data)) |}) ].

(** * Facts about the matcher *)

Lemma chr_eqb_refl c : chr_eqb c c = true.
Proof. apply N.eqb_refl. Qed.

Lemma chr_eqb_eq a b : chr_eqb a b = true -> a = b.
Proof. apply N.eqb_eq. Qed.

Lemma strip_prefix_app l s : strip_prefix l (l ++ s) = Some s.
Proof.
  induction l as [|a l IH]; simpl; [reflexivity|].
  now rewrite chr_eqb_refl.
Qed.

Lemma strip_prefix_Some l : forall s s', strip_prefix l s = Some s' -> s = l ++ s'.
Proof.
  induction l as [|a l IH]; simpl; intros s s' H.
  - now inversion H.
  - destruct s as [|b s]; [discriminate|].
    destruct (chr_eqb a b) eqn:E; [|discriminate].
    apply chr_eqb_eq in E. subst b. f_equal. now apply IH.
Qed.



Lemma run_length_app cls g s :
  Forall (fun c => cls c = true) g -> length g <= run_length cls (g ++ s).
Proof.
  induction 1 as [|c g Hc _ IH]; simpl; [lia|]. rewrite Hc. lia.
Qed.

Lemma run_length_stop cls g c s :
  Forall (fun c => cls c = true) g -> cls c = false ->
  run_length cls (g ++ c :: s) = length g.
Proof.
  intros Hg Hc. induction Hg as [|d g Hd _ IH]; simpl.
  - now rewrite Hc.
  - rewrite Hd. now f_equal.
Qed.

Lemma run_length_all cls g :
  Forall (fun c => cls c = true) g -> run_length cls g = length g.
Proof.
  induction 1 as [|d g Hd _ IH]; simpl; [reflexivity|]. rewrite Hd. now f_equal.
Qed.


Lemma backtrack_complete k s j : forall n,
  1 <= j <= n -> is_Some (k (drop j s)) -> is_Some (backtrack k s n).
Proof.
  induction n as [|n IH]; intros Hj Hk; [lia|]. simpl.
  destruct (k (drop (S n) s)) as [[caps rest]|] eqn:E; [eauto|].
  destruct (decide (j = S n)) as [->|Hne].
  - rewrite E in Hk. now destruct Hk.
  - apply IH; [lia|assumption].
Qed.

Lemma backtrack_first k s n caps rest :
  k (drop (S n) s) = Some (caps, rest) ->
  backtrack k s (S n) = Some (take (S n) s :: caps, rest).
Proof. intros H. simpl. now rewrite H. Qed.


(** Where an instance starts, the matcher finds a match. *)
Lemma match_here_complete items : forall caps m rest,
  Inst items caps m -> is_Some (match_here items (m ++ rest)).
Proof.
  intros caps m rest H. revert rest.
  induction H as [|l items caps m H IH|cls items g caps m Hne Hg H IH];
    intros rest; simpl.
  - eauto.
  - rewrite <- app_assoc, strip_prefix_app. apply IH.
  - apply (backtrack_complete _ _ (length g)).
    + split.
      * destruct g; [congruence|simpl; lia].
      * rewrite <- app_assoc. now apply run_length_app.
    + rewrite <- app_assoc, drop_app_length. apply IH.
Qed.

(** On a delimited pattern the first, greedy, attempt reads an instance
    exactly: no character is given back. *)
Lemma match_here_exact items caps m :
  Inst items caps m -> delimited items ->
  match_here items m = Some (caps, []).
Proof.
  induction 1 as [|l items caps m H IH|cls items g caps m Hne Hg H IH];
    intros Hd.
  - reflexivity.
  - simpl. rewrite strip_prefix_app. now apply IH.
  - cbn [match_here].
    assert (Hlen : exists n, length g = S n).
    { destruct g; [congruence|simpl; eauto]. }
    destruct Hlen as [n Hn].
    assert (Hrun : run_length cls (g ++ m) = length g).
    { destruct items as [|[[|c l]|cls'] items]; simpl in Hd; try tauto.
      - inversion H; subst. rewrite app_nil_r. now apply run_length_all.
      - inversion H; subst. destruct Hd as [Hc _].
        simpl. now apply run_length_stop. }
    assert (Hk : match_here items (drop (S n) (g ++ m)) = Some (caps, [])).
    { rewrite <- Hn, drop_app_length. apply IH.
      destruct items as [|[[|c l]|cls'] items]; simpl in Hd; tauto. }
    rewrite Hrun, Hn, (backtrack_first _ _ _ _ _ Hk).
    rewrite <- Hn, take_app_length. reflexivity.
Qed.

Lemma re_search_head items s caps rest :
  match_here items s = Some (caps, rest) -> re_search items s = Some caps.
Proof. intros H. destruct s; simpl; now rewrite H. Qed.


(** Where an instance occurs, the search finds a match. *)
Lemma re_search_complete items caps m post : forall pre,
  Inst items caps m -> is_Some (re_search items (pre ++ m ++ post)).
Proof.
  intros pre Hm. induction pre as [|c pre IH].
  - destruct (match_here_complete items caps m post Hm) as [[caps' rest] E].
    simpl. erewrite re_search_head; eauto.
  - simpl. destruct (match_here items _) as [[caps' rest]|]; eauto.
Qed.


(** * Facts about [parse_data] *)

Section ParserFacts.
Context (U : UnicodeData).


Lemma patron_delimited : delimited (patron U).
Proof. vm_compute. tauto. Qed.

Lemma field_spec cls g :
  field cls g <-> g <> [] /\ Forall (fun c => cls c = true) g.
Proof.
  unfold field. rewrite andb_true_iff, forallb_forall, Forall_forall.
  split; intros [H1 H2]; split.
  - destruct g; [discriminate|congruence].
  - intros x Hx. apply H2. now apply list_elem_of_In.
  - destruct g; [congruence|reflexivity].
  - intros x Hx. apply H2. now apply list_elem_of_In.
Qed.

Lemma Inst_field cls items g caps m :
  field cls g -> Inst items caps m ->
  Inst (Group cls :: items) (g :: caps) (g ++ m).
Proof. intros [Hne Hg]%field_spec. now constructor. Qed.

Lemma Inst_last cls g : field cls g -> Inst [Group cls] [g] g.
Proof.
  intros Hg. rewrite <- (app_nil_r g) at 2.
  apply Inst_field; [assumption|constructor].
Qed.

Lemma wire_line_Inst p t mv sh f m esd estado relief purge :
  field (cls_num U) p -> field (cls_num U) t -> field (cls_num U) mv ->
  field (cls_num U) sh -> field (re_w U) f -> field (re_w U) m ->
  field (re_w U) esd -> field (cls_estado U) estado ->
  field (re_w U) relief -> field (re_w U) purge ->
  Inst (patron U) [p; t; mv; sh; f; m; esd; estado; relief; purge]
    (wire_line p t mv sh f m esd estado relief purge).
Proof.
  intros. unfold wire_line, patron.
  repeat (first [ apply Inst_last; assumption
                | apply Inst_lit
                | apply Inst_field; [assumption|] ]).
Qed.




(** Ten captures make a dictionary as soon as the four numbers are
    literals, whatever the other six are. *)
Lemma build_data_ok p t mv sh f m esd estado relief purge vp vt vmv vsh :
  py_float U p = Ret vp -> py_float U t = Ret vt ->
  py_float U mv = Ret vmv -> py_float U sh = Ret vsh ->
  build_data U [p; t; mv; sh; f; m; esd; estado; relief; purge]
  = Ret {| P := vp; T := vt; MV := vmv; SH := vsh; F := f; M := m;
           ESD := esd; ESTADO := estado; RELIEF := relief; PURGE := purge |}.
Proof.
  intros Hp Ht Hmv Hsh. unfold build_data, group. simpl.
  unfold mbind, pyres_bind. now rewrite Hp, Ht, Hmv, Hsh.
Qed.


Lemma parse_data_wire p t mv sh f m esd estado relief purge :
  field (cls_num U) p -> field (cls_num U) t -> field (cls_num U) mv ->
  field (cls_num U) sh -> field (re_w U) f -> field (re_w U) m ->
  field (re_w U) esd -> field (cls_estado U) estado ->
  field (re_w U) relief -> field (re_w U) purge ->
  parse_data U (wire_line p t mv sh f m esd estado relief purge)
  = catch (d ← build_data U [p; t; mv; sh; f; m; esd; estado; relief; purge];
           mret (Some d)) ValueError (Ret None).
Proof.
  intros. unfold parse_data.
  erewrite re_search_head; [reflexivity|].
  apply match_here_exact; [now apply wire_line_Inst|apply patron_delimited].
Qed.
End ParserFacts.

Section ParserMore.
Context (U : UnicodeData).

(** A delimited pattern reads its instance exactly also when text follows
    that starts outside the class of the last group. *)
Lemma match_here_exact_rest items caps m c rest :
  Inst items caps m -> delimited items -> ends_outside c items ->
  match_here items (m ++ c :: rest) = Some (caps, c :: rest).
Proof.
  induction 1 as [|l items caps m H IH|cls items g caps m Hne Hg H IH];
    intros Hd He.
  - reflexivity.
  - simpl. rewrite <- app_assoc, strip_prefix_app. apply IH; [exact Hd|].
    destruct items; [exact I|exact He].
  - cbn [match_here]. rewrite <- app_assoc.
    assert (Hlen : exists n, length g = S n).
    { destruct g; [congruence|simpl; eauto]. }
    destruct Hlen as [n Hn].
    assert (Hrun : run_length cls (g ++ m ++ c :: rest) = length g).
    { destruct items as [|[[|c' l]|cls'] items]; simpl in Hd; try tauto.
      - inversion H; subst. simpl. now apply run_length_stop.
      - inversion H; subst. destruct Hd as [Hc _].
        simpl. now apply run_length_stop. }
    assert (Hk : match_here items (drop (S n) (g ++ m ++ c :: rest))
                 = Some (caps, c :: rest)).
    { rewrite <- Hn, drop_app_length. apply IH.
      - destruct items as [|[[|c' l]|cls'] items]; simpl in Hd; tauto.
      - destruct items; [exact I|exact He]. }
    rewrite Hrun, Hn, (backtrack_first _ _ _ _ _ Hk).
    rewrite <- Hn, take_app_length. reflexivity.
Qed.

(** No match starts at a character that is not [P]. *)
Lemma re_search_skip pre : forall s,
  forallb (fun c => negb (chr_eqb (ch "P") c)) pre = true ->
  re_search (patron U) (pre ++ s) = re_search (patron U) s.
Proof.
  induction pre as [|c pre IH]; intros s H; [reflexivity|].
  cbn [forallb] in H. apply andb_true_iff in H. destruct H as [Hc H].
  apply negb_true_iff in Hc.
  change ((c :: pre) ++ s) with (c :: (pre ++ s)).
  cbn [re_search]. unfold patron at 1. cbn [match_here].
  change (lit "P:") with (ch "P" :: lit ":"). cbn [strip_prefix].
  rewrite Hc. now apply IH.
Qed.

Lemma re_search_wire p t mv sh f m esd estado relief purge post :
  field (cls_num U) p -> field (cls_num U) t -> field (cls_num U) mv ->
  field (cls_num U) sh -> field (re_w U) f -> field (re_w U) m ->
  field (re_w U) esd -> field (cls_estado U) estado ->
  field (re_w U) relief -> field (re_w U) purge ->
  outside_word U post = true ->
  re_search (patron U)
    (wire_line p t mv sh f m esd estado relief purge ++ post)
  = Some [p; t; mv; sh; f; m; esd; estado; relief; purge].
Proof.
  intros Hp Ht Hmv Hsh Hf Hm Hesd Hest Hrel Hpur Hpost.
  pose proof (wire_line_Inst U _ _ _ _ _ _ _ _ _ _
                Hp Ht Hmv Hsh Hf Hm Hesd Hest Hrel Hpur) as HI.
  destruct post as [|c post].
  - rewrite app_nil_r. eapply re_search_head.
    apply match_here_exact; [exact HI|apply patron_delimited].
  - eapply re_search_head. apply match_here_exact_rest;
      [exact HI|apply patron_delimited|].
    simpl in Hpost. apply negb_true_iff in Hpost. exact Hpost.
Qed.

End ParserMore.




(** * The read loop *)

Section ReaderFacts.
Context (U : UnicodeData).

Lemma run_loop_stopped reads self :
  running self = false -> run_loop U reads self = (self, [], reads).
Proof. intros H. destruct reads; simpl; [reflexivity|now rewrite H]. Qed.

Lemma run_running reads self :
  running self = true -> run U reads self = run_loop U reads self.
Proof. intros H. unfold run. now rewrite H. Qed.

Lemma run_loop_serial_exception pre post : forall self,
  running self = true -> existsb is_serial_exception pre = false ->
  run_loop U (pre ++ ReadSerialException :: post) self
  = ({| running := false; ser_is_open := ser_is_open self |},
     (run_loop U pre self).1.2, post).
Proof.
  induction pre as [|r pre IH]; intros self Hrun Hpre; simpl.
  - rewrite Hrun. now rewrite run_loop_stopped.
  - rewrite Hrun. simpl in Hpre. apply orb_false_iff in Hpre.
    destruct Hpre as [Hr Hpre]. destruct r; try discriminate.
    + rewrite (IH self Hrun Hpre).
      now destruct (run_loop U pre self) as [[self' emitted] rest].
    + now apply IH.
Qed.
End ReaderFacts.

(** C7, as amended.  When a read raises [serial.SerialException] the loop
    ends there: [running] is cleared, no later read is attempted, the
    signals emitted are those of the reads before the error, and starting
    the reader again reads and emits nothing.  The loop does not close the
    port: it stays as it was until [stop] closes it.  An exception of another
    class does not end the loop, which goes on to the next read. *)
Theorem reader_fail_stop (U : UnicodeData) pre post self :
  running self = true -> existsb is_serial_exception pre = false ->
  let '(self', emitted, rest) := run U (pre ++ ReadSerialException :: post) self in
  running self' = false
  /\ rest = post
  /\ emitted = (run U pre self).1.2
  /\ (forall more, run U more self' = (self', [], more))
  /\ ser_is_open self' = ser_is_open self
  /\ ser_is_open (stop self') = false
  /\ (forall reads, run U (ReadException :: reads) self = run U reads self).
Proof.
  intros Hrun Hpre.
  rewrite !run_running, run_loop_serial_exception by assumption.
  cbv beta iota. repeat apply conj; try reflexivity.
  - unfold stop; simpl. now destruct (ser_is_open self).
  - intros reads. rewrite !run_running by assumption. simpl. now rewrite Hrun.
Qed.

(** [reader_fail_stop] on a run: a line, the error, a line that is never
    read. *)
Lemma reader_fail_stop_example :
  run ascii_only
    [ReadText example_line; ReadSerialException; ReadText example_line]
    (SerialReader_init true)
  = ({| running := false; ser_is_open := true |}, [example_data],
     [ReadText example_line]).
Proof.
  pose proof (reader_fail_stop ascii_only [ReadText example_line]
                [ReadText example_line] (SerialReader_init true)
                eq_refl eq_refl) as H.
  simpl app in H.
  destruct (run ascii_only _ (SerialReader_init true)) as [[self' emitted] rest].
  destruct H as (Hr & -> & -> & _ & Ho & _).
  destruct self' as [r o]. simpl in Hr, Ho. subst r o. reflexivity.
Defined.

(** C7 as stated fails: after the error the loop has ended and the port is
    still open. *)
Lemma serial_exception_leaves_port_open :
  let '(self', _, _) :=
    run ascii_only [ReadSerialException] (SerialReader_init true) in
  running self' = false /\ ser_is_open self' = true.
Proof. split; reflexivity. Qed.

(** * The severity rule *)

Lemma strip_prefix_occurs w s s' : strip_prefix w s = Some s' -> occurs w s.
Proof. intros H. apply strip_prefix_Some in H. now exists [], s'. Qed.

(** [str_in] decides occurrence. *)
Lemma str_in_spec w : forall s, str_in w s = true <-> occurs w s.
Proof.
  induction s as [|c s IH]; simpl;
    destruct (strip_prefix w _) as [s'|] eqn:E.
  - split; [intros _; eapply strip_prefix_occurs, E|reflexivity].
  - split; [discriminate|]. intros (pre & post & H).
    symmetry in H. apply app_eq_nil in H. destruct H as [-> H].
    apply app_eq_nil in H. destruct H as [-> ->]. discriminate E.
  - split; [intros _; eapply strip_prefix_occurs, E|reflexivity].
  - rewrite IH. split.
    + intros (pre & post & ->). now exists (c :: pre), post.
    + intros (pre & post & H). destruct pre as [|c' pre].
      * simpl in H. rewrite H, strip_prefix_app in E. discriminate E.
      * inversion H; subst. now exists pre, post.
Qed.

Lemma existsb_str_in ws s :
  existsb (fun word => str_in word s) ws = true <-> has_word ws s.
Proof.
  rewrite existsb_exists. unfold has_word.
  split; intros (w & Hw & H); exists w.
  - now rewrite list_elem_of_In, <- str_in_spec.
  - now rewrite <- list_elem_of_In, str_in_spec.
Qed.

(** C8.  A status text with a word of the critical set is critical; one
    with none of them and a word of the warning set is a warning; one with
    neither is nominal; [Operando Normal] is nominal. *)
Theorem classify_spec (estado : str) :
  (has_word critical_words estado -> classify estado = critical)
  /\ (~ has_word critical_words estado -> has_word warning_words estado ->
      classify estado = warning)
  /\ (~ has_word critical_words estado -> ~ has_word warning_words estado ->
      classify estado = nominal)
  /\ classify (lit "Operando Normal") = nominal.
Proof.
  unfold classify, status_background.
  pose proof (existsb_str_in critical_words estado) as Hc.
  pose proof (existsb_str_in warning_words estado) as Hw.
  destruct (existsb _ critical_words) eqn:Ec;
    destruct (existsb _ warning_words) eqn:Ew;
    repeat apply conj; try reflexivity; intros;
    solve [ reflexivity
          | exfalso; tauto
          | exfalso;
            match goal with
            | H : has_word _ _ |- _ =>
                first [ apply Hc in H | apply Hw in H ]; discriminate H
            end ].
Qed.

(** [classify_spec] on a status with words of both sets: the critical word
    decides. *)
Lemma classify_example :
  classify (lit "Advertencia: Alivio abierto") = critical.
Proof.
  apply (proj1 (classify_spec (lit "Advertencia: Alivio abierto"))).
  exists (lit "Alivio"). split.
  - vm_compute. apply list_elem_of_here.
  - exists (lit "Advertencia: "), (lit " abierto"). reflexivity.
Defined.

(** * The circular store *)

Lemma MAX_POINTS_pos : 0 < MAX_POINTS.
Proof. unfold MAX_POINTS. lia. Qed.

Lemma interval_pos : (0 < interval_s)%Q.
Proof. reflexivity. Qed.

#[local] Opaque MAX_POINTS interval_s.

Lemma Stored_init : Stored (store_of PlotterApp_init) [].
Proof.
  unfold Stored, store_of; simpl. rewrite !length_replicate.
  repeat split; inversion H.
Qed.

Lemma Stored_push st h smp : Stored st h -> Stored (push st smp) (h ++ [smp]).
Proof.
  destruct st as [[[x y1] y2] w]. unfold Stored, push.
  intros (Hx & Hy1 & Hy2 & -> & Hslots).
  pose proof MAX_POINTS_pos as HN.
  rewrite !length_insert, length_app. simpl.
  repeat apply conj; try assumption; try reflexivity.
  intros i smp' Hi Hwin.
  assert (Hmod : length h mod MAX_POINTS < MAX_POINTS)
    by (apply Nat.mod_upper_bound; lia).
  destruct (decide (i = length h)) as [->|Hne].
  - rewrite list_lookup_middle in Hi by reflexivity. inversion Hi; subst smp'.
    rewrite !list_lookup_insert_eq by lia. auto.
  - assert (Hlt : i < length h).
    { apply lookup_lt_Some in Hi. rewrite length_app in Hi. simpl in Hi. lia. }
    rewrite lookup_app_l in Hi by assumption.
    assert (Hdiff : length h mod MAX_POINTS <> i mod MAX_POINTS).
    { intros Heq.
      pose proof (Nat.div_mod_eq (length h) MAX_POINTS) as E1.
      pose proof (Nat.div_mod_eq i MAX_POINTS) as E2.
      rewrite Heq in E1.
      assert (length h `div` MAX_POINTS = i `div` MAX_POINTS) by nia.
      nia. }
    rewrite !list_lookup_insert_ne by assumption.
    apply Hslots; [assumption|lia].
Qed.

Lemma Stored_foldl w : forall st h,
  Stored st h -> Stored (foldl push st w) (h ++ w).
Proof.
  induction w as [|smp w IH]; intros st h H; simpl.
  - now rewrite app_nil_r.
  - rewrite (assoc_L _ h [smp] w : h ++ smp :: w = (h ++ [smp]) ++ w).
    apply IH. now apply Stored_push.
Qed.

(** A column of the arrays before the first wrap: the first writes, in
    order. *)
Lemma column_prefix (f : Sample -> Q) (arr : list Q) (h : list Sample) :
  length arr = MAX_POINTS -> length h < MAX_POINTS ->
  (forall i smp, h !! i = Some smp -> arr !! (i mod MAX_POINTS) = Some (f smp)) ->
  take (length h) arr = f <$> h.
Proof.
  intros Harr Hlen Hslots.
  apply (list_eq_same_length _ _ (length h)).
  - now rewrite length_fmap.
  - rewrite length_take. lia.
  - intros i x y Hi Hx Hy.
    rewrite lookup_take_lt in Hx by assumption.
    rewrite list_lookup_fmap in Hy.
    destruct (h !! i) as [smp|] eqn:E; [|discriminate].
    apply Hslots in E. rewrite Nat.mod_small in E by lia.
    simpl in Hy. congruence.
Qed.

(** A column once the ring has wrapped: from the write slot to the end, then
    from the start to the write slot, are the last [MAX_POINTS] writes. *)
Lemma column_wrapped (f : Sample -> Q) (arr : list Q) (h : list Sample) :
  length arr = MAX_POINTS -> MAX_POINTS <= length h ->
  (forall i smp, h !! i = Some smp -> length h <= i + MAX_POINTS ->
                 arr !! (i mod MAX_POINTS) = Some (f smp)) ->
  drop (length h mod MAX_POINTS) arr ++ take (length h mod MAX_POINTS) arr
  = f <$> newest h.
Proof.
  intros Harr Hlen Hslots. unfold newest.
  pose proof MAX_POINTS_pos as HN.
  set (s := length h mod MAX_POINTS).
  assert (Hs : s < MAX_POINTS) by (apply Nat.mod_upper_bound; lia).
  pose proof (Nat.div_mod_eq (length h) MAX_POINTS) as Hk. fold s in Hk.
  set (q := length h `div` MAX_POINTS) in Hk.
  assert (Hq : 1 <= q) by nia.
  apply (list_eq_same_length _ _ MAX_POINTS).
  - rewrite length_fmap, length_drop. lia.
  - rewrite length_app, length_drop, length_take. lia.
  - intros j x y Hj Hx Hy.
    rewrite list_lookup_fmap, lookup_drop in Hy.
    destruct (h !! (length h - MAX_POINTS + j)) as [smp|] eqn:E;
      [|discriminate].
    apply Hslots in E; [|lia]. simpl in Hy. inversion Hy; subst y; clear Hy.
    rewrite lookup_app in Hx. rewrite lookup_drop in Hx.
    destruct (decide (s + j < MAX_POINTS)) as [Hlo|Hhi].
    + assert (Hm : (length h - MAX_POINTS + j) mod MAX_POINTS = s + j).
      { symmetry. apply (Nat.mod_unique _ _ (q - 1)); [assumption|nia]. }
      rewrite Hm in E.
      destruct (arr !! (s + j)) as [v|] eqn:Ev; [congruence|discriminate].
    + assert (Hm : (length h - MAX_POINTS + j) mod MAX_POINTS
                   = j - (MAX_POINTS - s)).
      { symmetry. apply (Nat.mod_unique _ _ q); [lia|nia]. }
      rewrite Hm in E.
      rewrite (lookup_ge_None_2 arr (s + j)) in Hx by lia.
      rewrite length_drop, Harr in Hx.
      rewrite lookup_take_lt in Hx by lia. congruence.
Qed.

(** The snapshot is the series of the newest writes, in write order. *)
Lemma snapshot_Stored self h :
  Stored (store_of self) h ->
  snapshot self = match h with
                  | [] => None
                  | _ => Some (series (newest h))
                  end.
Proof.
  unfold Stored, store_of, snapshot.
  intros (Hx & Hy1 & Hy2 & Hw & Hslots). rewrite Hw.
  pose proof MAX_POINTS_pos as HN.
  destruct (decide (length h < MAX_POINTS)) as [Hlt|Hge].
  - rewrite Nat.min_l by lia.
    destruct h as [|smp h']; [reflexivity|].
    set (h := smp :: h') in *.
    replace (length h =? 0) with false
      by (symmetry; apply Nat.eqb_neq; simpl; lia).
    replace (length h <? MAX_POINTS) with true
      by (symmetry; now apply Nat.ltb_lt).
    unfold series, newest.
    replace (length h - MAX_POINTS) with 0 by lia. simpl drop.
    rewrite (column_prefix sample_time), (column_prefix sample_p),
      (column_prefix sample_t); try assumption; try reflexivity;
      intros i s Hi; apply Hslots; try assumption;
      apply lookup_lt_Some in Hi; lia.
  - rewrite Nat.min_r by lia.
    destruct h as [|smp h']; [simpl in Hge; lia|].
    set (h := smp :: h') in *.
    replace (MAX_POINTS =? 0) with false
      by (symmetry; apply Nat.eqb_neq; lia).
    replace (MAX_POINTS <? MAX_POINTS) with false
      by (symmetry; apply Nat.ltb_ge; lia).
    unfold series.
    rewrite (column_wrapped sample_time), (column_wrapped sample_p),
      (column_wrapped sample_t); try assumption; try reflexivity; try lia;
      intros i s Hi Hwin; now apply Hslots.
Qed.

(** ** The gap loop *)

Lemma Qnat_S n : (Qnat (S n) == Qnat n + 1)%Q.
Proof.
  unfold Qnat. rewrite Nat2Z.inj_succ, <- Z.add_1_r, inject_Z_plus. reflexivity.
Qed.

Lemma Qnat_0 : (Qnat 0 == 0)%Q.
Proof. reflexivity. Qed.

Lemma Qle_bool_false x y : Qle_bool x y = false -> (y < x)%Q.
Proof.
  intros H. apply Qnot_le_lt. intros Hle. apply Qle_bool_iff in Hle. congruence.
Qed.

Lemma iter_times_length n : forall e, length (iter_times n e) = n.
Proof. induction n as [|n IH]; intros e; simpl; [reflexivity|now rewrite IH]. Qed.

(** Pass [k] runs at [e + k * interval_s]. *)
Lemma iter_times_lookup n : forall e k e',
  iter_times n e !! k = Some e' -> (e' == e + Qnat k * interval_s)%Q.
Proof.
  induction n as [|n IH]; intros e k e' H; [discriminate|].
  destruct k as [|k]; simpl in H.
  - inversion H; subst. rewrite Qnat_0. lra.
  - apply IH in H. rewrite H, Qnat_S. lra.
Qed.


(** The loop never writes a time later than the clock reading. *)
Lemma passes_le fuel : forall now e e',
  e' ∈ iter_times (passes fuel now e) e -> (e' <= now)%Q.
Proof.
  induction fuel as [|fuel IH]; intros now e e' H; simpl in H.
  - inversion H.
  - destruct (Qle_bool e now) eqn:E; simpl in H; [|inversion H].
    apply elem_of_cons in H. destruct H as [->|H].
    + now apply Qle_bool_iff.
    + eapply IH, H.
Qed.

(** With fuel for the whole gap the loop ends on its own test: the next
    expected time is past the clock reading. *)
Lemma passes_exit fuel : forall now e,
  (now - e < Qnat fuel * interval_s)%Q ->
  (now < e + Qnat (passes fuel now e) * interval_s)%Q.
Proof.
  induction fuel as [|fuel IH]; intros now e H; simpl.
  - rewrite Qnat_0 in *. lra.
  - destruct (Qle_bool e now) eqn:E.
    + rewrite Qnat_S in *.
      assert (H' : (now - (e + interval_s) < Qnat fuel * interval_s)%Q) by lra.
      apply IH in H'. lra.
    + apply Qle_bool_false in E. rewrite Qnat_0. lra.
Qed.

Lemma dummy_fuel_enough now e :
  (now - e < Qnat (dummy_fuel now e) * interval_s)%Q.
Proof.
  pose proof interval_pos as Hi. unfold dummy_fuel.
  set (q := ((now - e) / interval_s)%Q).
  assert (Hq : (now - e == q * interval_s)%Q).
  { unfold q. field. lra. }
  pose proof (Qlt_floor q) as Hfl.
  assert (Hz : (Qfloor q + 1 <= Z.of_nat (S (Z.to_nat (Qfloor q))))%Z) by lia.
  assert (Hz' : (inject_Z (Qfloor q + 1)
                 <= Qnat (S (Z.to_nat (Qfloor q))))%Q).
  { unfold Qnat. now rewrite <- Zle_Qle. }
  rewrite Hq. apply Qmult_lt_compat_r; [assumption|]. lra.
Qed.

(** More fuel changes nothing. *)
Lemma passes_fuel fuel : forall now e extra,
  (now - e < Qnat fuel * interval_s)%Q ->
  passes (fuel + extra) now e = passes fuel now e.
Proof.
  pose proof interval_pos as Hi.
  induction fuel as [|fuel IH]; intros now e extra H; simpl.
  - rewrite Qnat_0 in H. destruct extra; simpl; [reflexivity|].
    destruct (Qle_bool e now) eqn:E; [|reflexivity].
    apply Qle_bool_iff in E. lra.
  - destruct (Qle_bool e now); [|reflexivity].
    f_equal. apply IH. rewrite Qnat_S in H. lra.
Qed.

(** The loop itself returns the same with any more fuel: [dummy_fuel] is
    enough, and the model is the loop run to its end. *)
Lemma dummy_loop_fuel fuel : forall now f p t e added self extra,
  (now - e < Qnat fuel * interval_s)%Q ->
  dummy_loop (fuel + extra) now f p t e added self
  = dummy_loop fuel now f p t e added self.
Proof.
  pose proof interval_pos as Hi.
  induction fuel as [|fuel IH]; intros now f p t e added self extra H; simpl.
  - rewrite Qnat_0 in H. destruct extra; simpl; [reflexivity|].
    destruct (Qle_bool e now) eqn:E; [|reflexivity].
    apply Qle_bool_iff in E. lra.
  - destruct (Qle_bool e now); [|reflexivity].
    rewrite IH; [reflexivity|]. rewrite Qnat_S in H. lra.
Qed.

(** After [n] whole intervals of silence the loop makes [n] passes. *)
Lemma passes_count n : forall fuel now last,
  (last + Qnat n * interval_s <= now)%Q ->
  (now < last + (Qnat n + 1) * interval_s)%Q ->
  (now - (last + interval_s) < Qnat fuel * interval_s)%Q ->
  passes fuel now (last + interval_s) = n.
Proof.
  pose proof interval_pos as Hi.
  induction n as [|n IH]; intros fuel now last Hlo Hhi Hfuel.
  - rewrite Qnat_0 in *. destruct fuel; [reflexivity|]. simpl.
    destruct (Qle_bool _ now) eqn:E; [|reflexivity].
    apply Qle_bool_iff in E. lra.
  - rewrite Qnat_S in *.
    assert (Hn : (0 <= Qnat n)%Q).
    { unfold Qnat. change 0%Q with (inject_Z 0). rewrite <- Zle_Qle. lia. }
    assert (Hni : (0 <= Qnat n * interval_s)%Q) by nra.
    destruct fuel as [|fuel]; [rewrite Qnat_0 in Hfuel; lra|].
    rewrite Qnat_S in Hfuel. simpl.
    destruct (Qle_bool _ now) eqn:E.
    + f_equal. apply IH; lra.
    + apply Qle_bool_false in E. lra.
Qed.

(** What the loop returns: the dummies for its passes, pushed in order; the
    last expected time as the new [last_update_time]; every other field as
    it was. *)
Lemma dummy_loop_spec fuel : forall now f p t e added self self' added' w,
  dummy_loop fuel now f p t e added self = (self', added', w) ->
  w = dummies f p t (iter_times (passes fuel now e) e)
  /\ store_of self' = foldl push (store_of self) w
  /\ added' = (added || negb (is_nil w))%bool
  /\ first_data_time self' = first_data_time self
  /\ last_p self' = last_p self
  /\ last_t self' = last_t self
  /\ plot_dirty self' = plot_dirty self
  /\ last_update_time self'
     = match last (iter_times (passes fuel now e) e) with
       | Some e' => Some e'
       | None => last_update_time self
       end.
Proof.
  induction fuel as [|fuel IH]; intros now f p t e added self self' added' w H;
    simpl in H.
  - inversion H; subst. simpl. rewrite orb_false_r. tauto.
  - simpl passes. destruct (Qle_bool e now) eqn:E.
    + destruct (dummy_loop fuel _ _ _ _ _ _ _) as [[s'' a''] w''] eqn:El.
      inversion H; subst; clear H.
      apply IH in El.
      destruct El as (Hw & Hst & Ha & Hf & Hp & Ht & Hd & Hl).
      simpl in Hf, Hp, Ht, Hd, Hl.
      repeat apply conj; try assumption.
      * simpl. now rewrite <- Hw.
      * simpl. now rewrite orb_true_r.
      * rewrite Hl. cbn [iter_times]. rewrite last_cons.
        now destruct (last _).
    + inversion H; subst. simpl. rewrite orb_false_r. tauto.
Qed.

Lemma gap_synthesis_idle now self :
  first_data_time self = None \/ last_update_time self = None
  \/ last_p self = None ->
  gap_synthesis now self = (self, false, []).
Proof.
  unfold gap_synthesis.
  destruct (first_data_time self), (last_update_time self), (last_p self);
    intros [H|[H|H]]; congruence.
Qed.

(** [gap_synthesis] on a store that has received a sample. *)
Lemma gap_synthesis_spec now self f lu p self' added w :
  first_data_time self = Some f -> last_update_time self = Some lu ->
  last_p self = Some p ->
  gap_synthesis now self = (self', added, w) ->
  let m := passes (dummy_fuel now (lu + interval_s)) now (lu + interval_s) in
  w = dummies f p (default 0%Q (last_t self)) (iter_times m (lu + interval_s))
  /\ store_of self' = foldl push (store_of self) w
  /\ added = negb (is_nil w)
  /\ first_data_time self' = Some f
  /\ last_p self' = Some p
  /\ last_t self' = last_t self
  /\ plot_dirty self' = plot_dirty self
  /\ last_update_time self'
     = Some (default lu (last (iter_times m (lu + interval_s)))).
Proof.
  intros Hf Hl Hp H. unfold gap_synthesis in H. rewrite Hf, Hl, Hp in H.
  apply dummy_loop_spec in H.
  destruct H as (Hw & Hst & Ha & Hf' & Hp' & Ht' & Hd' & Hl').
  cbv zeta. repeat apply conj; try assumption; try congruence.
  rewrite Hl', Hl. now destruct (last _).
Qed.

(** The frame of the gap synthesis: whatever the state, it changes none of
    the anchor, the held values and the dirty flag. *)
Lemma gap_synthesis_frame now self :
  let self' := (gap_synthesis now self).1.1 in
  first_data_time self' = first_data_time self
  /\ last_p self' = last_p self
  /\ last_t self' = last_t self
  /\ plot_dirty self' = plot_dirty self.
Proof.
  cbv zeta. unfold gap_synthesis.
  destruct (first_data_time self) as [f|] eqn:Hf; [|simpl; tauto].
  destruct (last_update_time self) as [l|] eqn:Hl; [|simpl; tauto].
  destruct (last_p self) as [p|] eqn:Hp; [|simpl; tauto].
  destruct (dummy_loop _ _ _ _ _ _ _ _) as [[self' added] w] eqn:E.
  apply dummy_loop_spec in E. simpl. rewrite Hf, Hp in E. tauto.
Qed.

Lemma gap_synthesis_store now self :
  store_of (gap_synthesis now self).1.1
  = foldl push (store_of self) (gap_synthesis now self).2.
Proof.
  unfold gap_synthesis.
  destruct (first_data_time self) as [f|]; [|reflexivity].
  destruct (last_update_time self) as [l|]; [|reflexivity].
  destruct (last_p self) as [p|]; [|reflexivity].
  destruct (dummy_loop _ _ _ _ _ _ _ _) as [[self' added] w] eqn:E.
  apply dummy_loop_spec in E. simpl. tauto.
Qed.

Lemma gap_synthesis_added now self :
  (gap_synthesis now self).1.2 = negb (is_nil (gap_synthesis now self).2).
Proof.
  unfold gap_synthesis.
  destruct (first_data_time self) as [f|]; [|reflexivity].
  destruct (last_update_time self) as [l|]; [|reflexivity].
  destruct (last_p self) as [p|]; [|reflexivity].
  destruct (dummy_loop _ _ _ _ _ _ _ _) as [[self' added] w] eqn:E.
  apply dummy_loop_spec in E. simpl. tauto.
Qed.

(** ** One event *)

(** [update_plots] changes the fields as [gap_synthesis] does, but for the
    dirty flag. *)
Lemma update_plots_fields now ok self :
  let g := (gap_synthesis now self).1.1 in
  let u := (update_plots now ok self).1.1 in
  (update_plots now ok self).2 = (gap_synthesis now self).2
  /\ store_of u = store_of g
  /\ first_data_time u = first_data_time g
  /\ last_p u = last_p g /\ last_t u = last_t g
  /\ last_update_time u = last_update_time g.
Proof.
  cbv zeta. unfold update_plots.
  destruct (gap_synthesis now self) as [[g added] w]. simpl.
  destruct (plot_dirty g || added)%bool; [|simpl; tauto].
  destruct (snapshot g) as [[[x y1] y2]|]; [|simpl; tauto].
  destruct ok; simpl; tauto.
Qed.

Lemma step_store e self :
  store_of (step e self).1 = foldl push (store_of self) (step e self).2.
Proof.
  destruct e as [now d|now ok]; simpl.
  - reflexivity.
  - pose proof (update_plots_fields now ok self) as H. cbv zeta in H.
    destruct (update_plots now ok self) as [[u r] w]. simpl in *.
    destruct H as (-> & -> & _). apply gap_synthesis_store.
Qed.

Lemma run_events_store evs : forall self,
  store_of (run_events evs self).1
  = foldl push (store_of self) (run_events evs self).2.
Proof.
  induction evs as [|e evs IH]; intros self; simpl; [reflexivity|].
  pose proof (step_store e self) as Hs.
  destruct (step e self) as [self' w]. specialize (IH self').
  destruct (run_events evs self') as [self'' ws]. simpl in *.
  now rewrite foldl_app, <- Hs.
Qed.

(** After any run the store holds the run's writes. *)
Lemma run_events_Stored evs :
  Stored (store_of (run_events evs PlotterApp_init).1)
         (run_events evs PlotterApp_init).2.
Proof.
  rewrite run_events_store.
  apply (Stored_foldl _ _ [] Stored_init).
Qed.

(** ** Order of the written times *)




Lemma ascending_iter_times f n : forall lo e,
  (lo < e - f)%Q ->
  ascending (Some lo) ((fun e' => (e' - f)%Q) <$> iter_times n e).
Proof.
  pose proof interval_pos as Hi.
  induction n as [|n IH]; intros lo e H; simpl; [trivial|].
  split; [assumption|]. apply IH. lra.
Qed.

Lemma dummies_times f p t es :
  sample_time <$> dummies f p t es = (fun e => (e - f)%Q) <$> es.
Proof. unfold dummies. rewrite <- list_fmap_compose. reflexivity. Qed.




Lemma Timed_init : Timed PlotterApp_init None.
Proof. exact I. Qed.




(** ** The snapshot after a run *)


Lemma run_events_index evs :
  data_index (run_events evs PlotterApp_init).1
  = length (run_events evs PlotterApp_init).2.
Proof.
  pose proof (run_events_Stored evs) as H. unfold Stored, store_of in H. tauto.
Qed.




(** ** Reachable states *)

Lemma update_plots_idle now ok self :
  first_data_time self = None -> plot_dirty self = false ->
  update_plots now ok self = (self, NoRedraw, []).
Proof.
  intros Hf Hd. unfold update_plots.
  rewrite gap_synthesis_idle by auto. now rewrite Hd.
Qed.

Lemma step_index e self :
  data_index (step e self).1 = data_index self + length (step e self).2.
Proof.
  pose proof (step_store e self) as H.
  destruct (step e self) as [self' w]. simpl in *.
  assert (G : forall w st, (foldl push st w).2 = st.2 + length w).
  { clear. induction w as [|smp w IH]; intros st; simpl; [lia|].
    rewrite IH. destruct st as [[[x y1] y2] k]. simpl. lia. }
  apply (f_equal snd) in H. rewrite G in H. exact H.
Qed.

Lemma step_Sound e self : Sound self -> Sound (step e self).1.
Proof.
  intros HS. destruct e as [now d|now ok].
  - right. simpl. repeat split; eauto. lia.
  - destruct HS as [(Hf & Hl & Hp & Ht & Hd & Hi)|(Hf & Hl & Hp & Ht & Hi)].
    + simpl. rewrite update_plots_idle by assumption. left. tauto.
    + right. pose proof (step_index (Tick now ok) self) as Hidx.
      pose proof (update_plots_fields now ok self) as Hu.
      pose proof (gap_synthesis_frame now self) as Hg.
      cbv zeta in Hu, Hg. simpl in *.
      destruct (update_plots now ok self) as [[u r] w]. simpl in *.
      destruct Hu as (_ & _ & -> & -> & -> & ->).
      destruct Hg as (-> & -> & -> & _).
      repeat split; try assumption; try lia.
      destruct Hf as [f Hf], Hl as [lu Hl], Hp as [p Hp].
      destruct (gap_synthesis now self) as [[g added] w'] eqn:Eg.
      destruct (gap_synthesis_spec _ _ _ _ _ _ _ _ Hf Hl Hp Eg)
        as (_ & _ & _ & _ & _ & _ & _ & Hl').
      simpl. rewrite Hl'. eauto.
Qed.

Lemma run_events_Sound evs : forall self,
  Sound self -> Sound (run_events evs self).1.
Proof.
  induction evs as [|e evs IH]; intros self HS; simpl; [assumption|].
  pose proof (step_Sound e self HS) as HS'.
  destruct (step e self) as [self' w]. specialize (IH self' HS').
  now destruct (run_events evs self').
Qed.

Lemma Sound_init : Sound PlotterApp_init.
Proof. left. repeat split. Qed.

(** The [None] that [gap_synthesis] replaces by 0 does not occur. *)
Lemma last_t_with_last_p evs :
  let self := (run_events evs PlotterApp_init).1 in
  is_Some (last_p self) -> is_Some (last_t self).
Proof.
  cbv zeta. intros [p Hp].
  destruct (run_events_Sound evs _ Sound_init) as [H|H]; [|tauto].
  destruct H as (_ & _ & H & _). congruence.
Qed.

(** C6.  After a run with fewer than [MAX_POINTS] writes the write counter
    is their number [k]; if [k] is 0 there is no snapshot and a tick draws
    nothing; otherwise the snapshot is the first [k] entries of the arrays,
    and these are the samples written, in the order of writing. *)
Theorem prefill_snapshot (evs : list event) :
  length (run_events evs PlotterApp_init).2 < MAX_POINTS ->
  let self := (run_events evs PlotterApp_init).1 in
  let w := (run_events evs PlotterApp_init).2 in
  let k := length w in
  data_index self = k
  /\ (k = 0 ->
      snapshot self = None
      /\ forall now ok, update_plots now ok self = (self, NoRedraw, []))
  /\ (0 < k ->
      snapshot self = Some (take k (x_data self), take k (y1_data self),
                            take k (y2_data self))
      /\ (take k (x_data self), take k (y1_data self), take k (y2_data self))
         = series w).
Proof.
  pose proof (run_events_Stored evs) as HS.
  pose proof (run_events_index evs) as Hidx.
  pose proof (run_events_Sound evs _ Sound_init) as Hsound.
  destruct (run_events evs PlotterApp_init) as [self w]. simpl in *.
  intros Hlen. pose proof (snapshot_Stored self w HS) as Hsnap.
  repeat apply conj.
  - exact Hidx.
  - intros Hk. destruct w; [|discriminate Hk]. split; [exact Hsnap|].
    intros now ok. destruct Hsound as [H|H]; [|simpl in Hidx; lia].
    apply update_plots_idle; tauto.
  - intros Hk.
    assert (Hs : snapshot self
                 = Some (take (length w) (x_data self),
                         take (length w) (y1_data self),
                         take (length w) (y2_data self))).
    { unfold snapshot. rewrite Hidx, Nat.min_l by lia.
      replace (length w =? 0) with false
        by (symmetry; apply Nat.eqb_neq; lia).
      replace (length w <? MAX_POINTS) with true
        by (symmetry; now apply Nat.ltb_lt).
      reflexivity. }
    split; [exact Hs|].
    rewrite Hs in Hsnap. destruct w; [simpl in Hk; lia|].
    unfold newest in Hsnap.
    replace (length (s :: w) - MAX_POINTS) with 0 in Hsnap by lia.
    rewrite drop_0 in Hsnap. congruence.
Qed.

(** [prefill_snapshot] on a sample and 0.35 s of silence: four writes. *)
Lemma prefill_snapshot_example :
  let self := (run_events prefill_run PlotterApp_init).1 in
  (take 4 (x_data self), take 4 (y1_data self), take 4 (y2_data self))
  = series (run_events prefill_run PlotterApp_init).2.
Proof.
  assert (H : length (run_events prefill_run PlotterApp_init).2 < MAX_POINTS)
    by (vm_compute; lia).
  refine (proj2 (proj2 (proj2 (prefill_snapshot prefill_run H)) _)).
  vm_compute. lia.
Defined.


(** ** Silence: ticks with no sample between them *)

Lemma run_events_app evs1 : forall evs2 self,
  run_events (evs1 ++ evs2) self
  = let '(self1, w1) := run_events evs1 self in
    let '(self2, w2) := run_events evs2 self1 in
    (self2, w1 ++ w2).
Proof.
  induction evs1 as [|e evs1 IH]; intros evs2 self; simpl.
  - now destruct (run_events evs2 self).
  - destruct (step e self) as [self' w]. rewrite IH.
    destruct (run_events evs1 self') as [self1 w1].
    destruct (run_events evs2 self1) as [self2 w2].
    now rewrite app_assoc.
Qed.

Lemma advance_S n x : advance (S n) x = (advance n x + interval_s)%Q.
Proof. reflexivity. Qed.

Lemma Qnat_add a b : (Qnat (a + b) == Qnat a + Qnat b)%Q.
Proof. unfold Qnat. rewrite Nat2Z.inj_add, inject_Z_plus. reflexivity. Qed.

Lemma Qnat_lt a b : (Qnat a * interval_s < Qnat b * interval_s)%Q -> a < b.
Proof.
  intros H. apply Qmult_lt_r in H; [|apply interval_pos].
  unfold Qnat in H. rewrite <- Zlt_Qlt in H. lia.
Qed.

(** [n] additions of the interval amount to [n] intervals. *)
Lemma advance_value n x : (advance n x == x + Qnat n * interval_s)%Q.
Proof.
  induction n as [|n IH].
  - unfold advance; simpl. rewrite Qnat_0. lra.
  - rewrite advance_S, IH, Qnat_S. lra.
Qed.

Lemma iter_times_chain lu m : forall j,
  iter_times m (advance j lu + interval_s) = chain lu (S j) m.
Proof.
  unfold chain. induction m as [|m IH]; intros j; [reflexivity|].
  cbn [iter_times seq fmap list_fmap]. rewrite <- advance_S. f_equal.
  apply IH.
Qed.

Lemma chain_last lu j m :
  default (advance j lu) (last (chain lu (S j) m)) = advance (j + m) lu.
Proof.
  unfold chain. destruct m as [|m].
  - simpl. now rewrite Nat.add_0_r.
  - rewrite seq_S, fmap_app.
    change ((fun k => advance k lu) <$> [S j + m]) with [advance (S j + m) lu].
    rewrite last_snoc.
    change (advance (S j + m) lu = advance (j + S m) lu). f_equal. lia.
Qed.

Lemma chain_app lu j a b : chain lu j a ++ chain lu (j + a) b = chain lu j (a + b).
Proof. unfold chain. now rewrite seq_app, fmap_app. Qed.


Lemma foldl_push_index w : forall st, (foldl push st w).2 = st.2 + length w.
Proof.
  induction w as [|smp w IH]; intros st; simpl; [lia|].
  rewrite IH. destruct st as [[[x y1] y2] k]. simpl. lia.
Qed.

(** One gap synthesis from a store whose latest update is [j] intervals
    after [lu]: it writes the dummies of the next [m] expected times, moves
    the latest update there, stays at or below the clock reading and ends
    with the next expected time above it. *)
Lemma gap_synthesis_chain now self f lu p t j self' added w :
  first_data_time self = Some f ->
  last_update_time self = Some (advance j lu) ->
  last_p self = Some p -> last_t self = Some t ->
  gap_synthesis now self = (self', added, w) ->
  exists m,
    w = dummies f p t (chain lu (S j) m)
    /\ first_data_time self' = Some f
    /\ last_update_time self' = Some (advance (j + m) lu)
    /\ last_p self' = Some p /\ last_t self' = Some t
    /\ plot_dirty self' = plot_dirty self
    /\ data_index self' = data_index self + m
    /\ (0 < m -> (advance (j + m) lu <= now)%Q)
    /\ (now < advance (j + m) lu + interval_s)%Q.
Proof.
  intros Hf Hl Hp Ht Hg.
  destruct (gap_synthesis_spec _ _ _ _ _ _ _ _ Hf Hl Hp Hg)
    as (Hw & Hst & _ & Hf' & Hp' & Ht' & Hd' & Hl').
  cbv zeta in Hw, Hl'.
  set (m := passes _ now _) in *.
  rewrite Ht in Hw, Ht'. simpl in Hw.
  exists m. rewrite iter_times_chain in Hw, Hl'. rewrite chain_last in Hl'.
  repeat apply conj; try assumption.
  - apply (f_equal snd) in Hst. rewrite foldl_push_index in Hst.
    simpl in Hst. rewrite Hst, Hw. unfold dummies, chain.
    now rewrite !length_fmap, length_seq.
  - intros Hm.
    assert (Hin : advance (j + m) lu ∈ iter_times m (advance j lu + interval_s)).
    { rewrite iter_times_chain. unfold chain. apply list_elem_of_fmap.
      exists (j + m). split; [reflexivity|]. apply elem_of_seq. lia. }
    eapply passes_le, Hin.
  - pose proof (passes_exit _ now _
                  (dummy_fuel_enough now (advance j lu + interval_s))) as Hx.
    fold m in Hx.
    rewrite (advance_value (j + m)), Qnat_add.
    rewrite (advance_value j) in Hx. lra.
Qed.

(** Ticks alone, none later than [now], move the store along the chain of
    expected times after [lu]. *)
Lemma ticks_chain f lu p t now ticks : forall self j,
  first_data_time self = Some f ->
  last_update_time self = Some (advance j lu) ->
  last_p self = Some p -> last_t self = Some t ->
  (j = 0 \/ (advance j lu <= now)%Q) ->
  forallb (tick_before now) ticks = true ->
  exists j',
    j <= j' /\ (j' = 0 \/ (advance j' lu <= now)%Q)
    /\ (run_events ticks self).2 = dummies f p t (chain lu (S j) (j' - j))
    /\ first_data_time (run_events ticks self).1 = Some f
    /\ last_update_time (run_events ticks self).1 = Some (advance j' lu)
    /\ last_p (run_events ticks self).1 = Some p
    /\ last_t (run_events ticks self).1 = Some t
    /\ data_index (run_events ticks self).1 = data_index self + (j' - j).
Proof.
  induction ticks as [|e ticks IH]; intros self j Hf Hl Hp Ht Hb Hticks.
  - exists j. rewrite Nat.sub_diag. simpl. repeat split; auto; lia.
  - simpl in Hticks. apply andb_true_iff in Hticks.
    destruct Hticks as [He Hticks].
    destruct e as [tau d|tau ok]; [discriminate|]. simpl in He.
    apply Qle_bool_iff in He.
    cbn [run_events step].
    pose proof (update_plots_fields tau ok self) as Hu. cbv zeta in Hu.
    destruct (update_plots tau ok self) as [[u r] w]. simpl in Hu.
    destruct Hu as (Hw & Hst & Hfu & Hpu & Htu & Hlu).
    destruct (gap_synthesis tau self) as [[g added] w'] eqn:Eg.
    simpl in *. subst w'.
    destruct (gap_synthesis_chain _ _ _ _ _ _ _ _ _ _ Hf Hl Hp Ht Eg)
      as (m & Hwm & Hf' & Hl' & Hp' & Ht' & _ & Hi' & Hle & _).
    rewrite <- Hfu in Hf'. rewrite <- Hlu in Hl'. rewrite <- Hpu in Hp'.
    rewrite <- Htu in Ht'.
    assert (Hb' : j + m = 0 \/ (advance (j + m) lu <= now)%Q).
    { destruct (decide (m = 0)) as [->|Hm].
      - rewrite Nat.add_0_r. exact Hb.
      - right. assert (H : 0 < m) by lia. apply Hle in H. lra. }
    destruct (IH u (j + m) Hf' Hl' Hp' Ht' Hb' Hticks)
      as (j' & Hj & Hbj & Hws & Hfs & Hls & Hps & Hts & His).
    destruct (run_events ticks u) as [self'' ws]. simpl in *.
    exists j'. repeat apply conj; try assumption; try lia.
    + rewrite Hwm, Hws. unfold dummies. rewrite <- fmap_app.
      replace (S (j + m)) with (S j + m) by lia.
      rewrite chain_app. do 2 f_equal. lia.
    + rewrite His. apply (f_equal snd) in Hst. simpl in Hst.
      rewrite Hst, Hi'. lia.
Qed.




(** ** The dirty flag *)

Lemma dummy_loop_nil fuel now f p t e added self :
  (dummy_loop fuel now f p t e added self).2 = [] ->
  (dummy_loop fuel now f p t e added self).1.1 = self.
Proof.
  destruct fuel as [|fuel]; simpl; [reflexivity|].
  destruct (Qle_bool e now); [|reflexivity].
  destruct (dummy_loop fuel _ _ _ _ _ _ _) as [[s a] w]. discriminate.
Qed.

Lemma gap_synthesis_nil now self :
  (gap_synthesis now self).2 = [] -> (gap_synthesis now self).1.1 = self.
Proof.
  unfold gap_synthesis.
  destruct (first_data_time self); [|reflexivity].
  destruct (last_update_time self); [|reflexivity].
  destruct (last_p self); [|reflexivity].
  apply dummy_loop_nil.
Qed.

Lemma snapshot_None self : snapshot self = None -> data_index self = 0.
Proof.
  pose proof MAX_POINTS_pos as HN. unfold snapshot.
  destruct (_ =? 0) eqn:E.
  - apply Nat.eqb_eq in E. lia.
  - destruct (_ <? _); discriminate.
Qed.

(** A tick that draws without failure leaves the flag cleared. *)
Lemma tick_clears self now :
  Sound self -> plot_dirty (update_plots now true self).1.1 = false.
Proof.
  intros HS. pose proof (step_Sound (Tick now true) self HS) as HS'.
  simpl in HS'. unfold update_plots in *.
  destruct (gap_synthesis now self) as [[g added] w].
  destruct (plot_dirty g || added)%bool eqn:Ec.
  - destruct (snapshot g) as [[[x y1] y2]|] eqn:Es; [reflexivity|].
    simpl in *. apply snapshot_None in Es.
    destruct HS' as [H|H]; [tauto|lia].
  - simpl. apply orb_false_iff in Ec. tauto.
Qed.

(** C4, as amended.  A real insertion sets [plot_dirty].  A synthetic
    insertion leaves [plot_dirty] as it was and sets [added_dummy], the flag
    of its own tick, and a tick that has written draws in that tick.  A set
    [plot_dirty] is cleared only by a tick whose drawing returns.  After a
    tick whose drawing did not fail, a tick that writes nothing draws nothing
    and changes nothing. *)
Theorem dirty_flag_discipline :
  (forall now d self, plot_dirty (receive_data now d self).1 = true)
  /\ (forall now self,
        plot_dirty (gap_synthesis now self).1.1 = plot_dirty self
        /\ (gap_synthesis now self).1.2
           = negb (is_nil (gap_synthesis now self).2))
  /\ (forall evs now ok,
        let self := (run_events evs PlotterApp_init).1 in
        (update_plots now ok self).2 <> [] ->
        (update_plots now ok self).1.2 <> NoRedraw)
  /\ (forall e self,
        plot_dirty self = true -> plot_dirty (step e self).1 = false ->
        exists now x y1 y2 lim,
          e = Tick now true
          /\ (update_plots now true self).1.2 = Redraw x y1 y2 lim)
  /\ (forall evs now1 now2 ok2,
        let self := (run_events (evs ++ [Tick now1 true]) PlotterApp_init).1 in
        (update_plots now2 ok2 self).2 = [] ->
        update_plots now2 ok2 self = (self, NoRedraw, [])).
Proof.
  repeat apply conj.
  - reflexivity.
  - intros now self. split.
    + apply gap_synthesis_frame.
    + apply gap_synthesis_added.
  - intros evs now ok. cbv zeta.
    pose proof (run_events_Sound evs _ Sound_init) as HS.
    set (self := (run_events evs PlotterApp_init).1) in *.
    pose proof (step_index (Tick now ok) self) as Hidx.
    pose proof (update_plots_fields now ok self) as Hu. cbv zeta in Hu.
    pose proof (gap_synthesis_added now self) as Ha.
    simpl in Hidx. unfold update_plots in *.
    destruct (gap_synthesis now self) as [[g added] w]. simpl in *.
    intros Hw.
    assert (Hadd : added = true).
    { rewrite Ha. destruct (plot_dirty g || added)%bool;
        [destruct (snapshot g) as [[[x y1] y2]|]; [destruct ok|]|];
        simpl in Hw; destruct w; simpl; congruence. }
    rewrite Hadd, orb_true_r in *.
    destruct (snapshot g) as [[[x y1] y2]|] eqn:Es.
    + destruct ok; simpl; discriminate.
    + apply snapshot_None in Es. simpl in *.
      destruct w; [congruence|simpl in Hidx; lia].
  - intros e self Hd Hc. destruct e as [now d|now ok]; [discriminate Hc|].
    simpl in Hc. pose proof (gap_synthesis_frame now self) as Hg.
    cbv zeta in Hg. destruct Hg as (_ & _ & _ & Hdg). rewrite Hd in Hdg.
    destruct ok.
    + exists now. unfold update_plots in *.
      destruct (gap_synthesis now self) as [[g added] w]. simpl in Hdg.
      rewrite Hdg in *. simpl in *.
      destruct (snapshot g) as [[[x y1] y2]|]; [|simpl in Hc; congruence].
      exists x, y1, y2, (x_limits x). split; reflexivity.
    + unfold update_plots in Hc.
      destruct (gap_synthesis now self) as [[g added] w]. simpl in Hdg.
      rewrite Hdg in Hc. simpl in Hc.
      destruct (snapshot g) as [[[x y1] y2]|]; simpl in Hc; congruence.
  - intros evs now1 now2 ok2. cbv zeta. rewrite run_events_app.
    pose proof (run_events_Sound evs _ Sound_init) as HS.
    destruct (run_events evs PlotterApp_init) as [s0 w0]. simpl in HS.
    pose proof (tick_clears s0 now1 HS) as Hclear.
    cbn [run_events step].
    destruct (update_plots now1 true s0) as [[self r] w1]. simpl in *.
    intros Hw.
    pose proof (update_plots_fields now2 ok2 self) as Hu. cbv zeta in Hu.
    destruct Hu as (Hw2 & _). rewrite Hw in Hw2. symmetry in Hw2.
    pose proof (gap_synthesis_nil now2 self Hw2) as Hg.
    pose proof (gap_synthesis_added now2 self) as Ha.
    unfold update_plots.
    destruct (gap_synthesis now2 self) as [[g added] w]. simpl in *.
    subst g w. simpl in Ha. subst added. now rewrite Hclear.
Qed.

(** [dirty_flag_discipline] on two ticks after a sample: the second writes
    nothing and draws nothing. *)
Lemma dirty_flag_discipline_example :
  update_plots 10.08 true drawn_store = (drawn_store, NoRedraw, []).
Proof.
  refine (proj2 (proj2 (proj2 (proj2 dirty_flag_discipline)))
            [Receive 10 (reading 300 150)] 10.05%Q 10.08%Q true _).
  vm_compute. reflexivity.
Defined.

(** C4 as stated fails: a synthetic insertion does not set [plot_dirty], and
    when the drawing of its tick fails the store is left with a written
    sample and a cleared flag. *)
Lemma synthetic_insertion_not_marked :
  length (gap_synthesis 10.2 drawn_store).2 = 2
  /\ plot_dirty (gap_synthesis 10.2 drawn_store).1.1 = false
  /\ (update_plots 10.2 false drawn_store).1.2 = RedrawFailed
  /\ plot_dirty (update_plots 10.2 false drawn_store).1.1 = false.
Proof. repeat split; vm_compute; reflexivity. Qed.

(** ** The held values and the anchor *)

Lemma step_last_p e self :
  last_p (step e self).1
  = match e with Receive _ d => Some (P d) | Tick _ _ => last_p self end
  /\ last_t (step e self).1
     = match e with Receive _ d => Some (T d) | Tick _ _ => last_t self end
  /\ first_data_time (step e self).1
     = match first_data_time self, e with
       | Some f, _ => Some f
       | None, Receive now _ => Some now
       | None, Tick _ _ => None
       end.
Proof.
  destruct e as [now d|now ok]; simpl.
  - now destruct (first_data_time self).
  - pose proof (update_plots_fields now ok self) as Hu.
    pose proof (gap_synthesis_frame now self) as Hg. cbv zeta in Hu, Hg.
    destruct (update_plots now ok self) as [[u r] w]. simpl in *.
    destruct Hu as (_ & _ & -> & -> & -> & _).
    destruct Hg as (-> & -> & -> & _). now destruct (first_data_time self).
Qed.

Lemma run_events_held evs : forall self,
  last_p (run_events evs self).1
  = match last_real evs with Some d => Some (P d) | None => last_p self end
  /\ last_t (run_events evs self).1
     = match last_real evs with Some d => Some (T d) | None => last_t self end.
Proof.
  induction evs as [|e evs IH]; intros self; simpl; [tauto|].
  destruct (step_last_p e self) as (Hp & Ht & _).
  destruct (step e self) as [self' w]. specialize (IH self').
  destruct (run_events evs self') as [self'' ws]. simpl in *.
  destruct IH as [-> ->]. rewrite Hp, Ht.
  destruct (last_real evs); [tauto|]. now destruct e.
Qed.

Lemma run_events_anchor evs : forall self,
  first_data_time (run_events evs self).1
  = match first_data_time self with
    | Some f => Some f
    | None => first_real_time evs
    end.
Proof.
  induction evs as [|e evs IH]; intros self; simpl.
  - now destruct (first_data_time self).
  - destruct (step_last_p e self) as (_ & _ & Hf).
    destruct (step e self) as [self' w]. specialize (IH self').
    destruct (run_events evs self') as [self'' ws]. simpl in *.
    rewrite IH, Hf. destruct (first_data_time self); [reflexivity|].
    now destruct e.
Qed.

(** C9.  The gap synthesis, and the whole tick, leave [last_p] and [last_t]
    as they were: of the fields the synthesis changes only the arrays, the
    write counter and the latest update.  After any run the two hold the
    pressure and the temperature of the latest sample received. *)
Theorem held_values :
  (forall now self,
      let self' := (gap_synthesis now self).1.1 in
      last_p self' = last_p self /\ last_t self' = last_t self
      /\ first_data_time self' = first_data_time self
      /\ plot_dirty self' = plot_dirty self)
  /\ (forall now ok self,
      let self' := (update_plots now ok self).1.1 in
      last_p self' = last_p self /\ last_t self' = last_t self)
  /\ (forall evs,
      let self := (run_events evs PlotterApp_init).1 in
      last_p self = P <$> last_real evs /\ last_t self = T <$> last_real evs).
Proof.
  repeat apply conj.
  - intros now self. pose proof (gap_synthesis_frame now self). simpl in *.
    tauto.
  - intros now ok self.
    destruct (step_last_p (Tick now ok) self) as (Hp & Ht & _).
    simpl in *. now destruct (update_plots now ok self) as [[u r] w].
  - intros evs. cbv zeta.
    destruct (run_events_held evs PlotterApp_init) as [-> ->].
    now destruct (last_real evs).
Qed.

(** C10.  After any run the anchor is the clock reading of the first sample
    received.  An event leaves a set anchor as it is; an unset anchor is set
    by a sample, to its clock reading, and by nothing else.  The relative
    time of a sample is its clock reading less the anchor, and the relative
    times a tick writes are the expected times after the latest update less
    the anchor. *)
Theorem anchor_fixed :
  (forall evs,
      first_data_time (run_events evs PlotterApp_init).1 = first_real_time evs)
  /\ (forall e self f,
      first_data_time self = Some f ->
      first_data_time (step e self).1 = Some f)
  /\ (forall e self,
      first_data_time self = None ->
      first_data_time (step e self).1
      = match e with Receive now _ => Some now | Tick _ _ => None end)
  /\ (forall now d self f,
      first_data_time self = Some f ->
      (receive_data now d self).2 = [((now - f)%Q, P d, T d)])
  /\ (forall now ok self f lu,
      first_data_time self = Some f -> last_update_time self = Some lu ->
      sample_time <$> (update_plots now ok self).2
      = (fun e => (e - f)%Q)
          <$> chain lu 1 (length (update_plots now ok self).2)).
Proof.
  repeat apply conj.
  - intros evs. now rewrite run_events_anchor.
  - intros e self f Hf. destruct (step_last_p e self) as (_ & _ & ->).
    now rewrite Hf.
  - intros e self Hf. destruct (step_last_p e self) as (_ & _ & ->).
    now rewrite Hf.
  - intros now d self f Hf. unfold receive_data. now rewrite Hf.
  - intros now ok self f lu Hf Hl.
    destruct (update_plots_fields now ok self) as (-> & _).
    destruct (last_p self) as [p|] eqn:Hp.
    + destruct (gap_synthesis now self) as [[g added] w] eqn:Eg.
      destruct (gap_synthesis_spec _ _ _ _ _ _ _ _ Hf Hl Hp Eg) as (Hw & _).
      cbv zeta in Hw. simpl.
      change (lu + interval_s)%Q with (advance 0 lu + interval_s)%Q in Hw.
      rewrite iter_times_chain in Hw. rewrite Hw, dummies_times.
      do 2 f_equal. unfold dummies, chain.
      now rewrite !length_fmap, length_seq.
    + rewrite gap_synthesis_idle by auto. reflexivity.
Qed.

(** [anchor_fixed] on the tick that follows 0.35 s of silence: its three
    relative times are taken from the anchor, 10 s. *)
Lemma anchor_fixed_example :
  sample_time <$> (update_plots 10.35 true fed_store).2
  = (fun e => (e - 10)%Q) <$> chain 10 1 3.
Proof.
  exact (proj2 (proj2 (proj2 (proj2 anchor_fixed)))
           10.35%Q true fed_store 10%Q 10%Q eq_refl eq_refl).
Defined.


(** * More about the parser and the reader *)

(** X1.  Around a ten-field line, text before it that has no [P] and text
    after it that starts outside [\w] are ignored: the line parses as it
    does alone. *)
Theorem parse_data_ignores_context (U : UnicodeData)
    p t mv sh f m esd estado relief purge pre post :
  field (cls_num U) p -> field (cls_num U) t -> field (cls_num U) mv ->
  field (cls_num U) sh -> field (re_w U) f -> field (re_w U) m ->
  field (re_w U) esd -> field (cls_estado U) estado ->
  field (re_w U) relief -> field (re_w U) purge ->
  forallb (fun c => negb (chr_eqb (ch "P") c)) pre = true ->
  outside_word U post = true ->
  parse_data U
    (pre ++ wire_line p t mv sh f m esd estado relief purge ++ post)
  = parse_data U (wire_line p t mv sh f m esd estado relief purge).
Proof.
  intros Hp Ht Hmv Hsh Hf Hm Hesd Hest Hrel Hpur Hpre Hpost.
  unfold parse_data. rewrite re_search_skip by exact Hpre.
  rewrite (re_search_wire U _ _ _ _ _ _ _ _ _ _ post) by assumption.
  pose proof (re_search_wire U p t mv sh f m esd estado relief purge []
                Hp Ht Hmv Hsh Hf Hm Hesd Hest Hrel Hpur eq_refl) as H0.
  rewrite app_nil_r in H0. now rewrite H0.
Qed.

(** The example line between line noise and a further field. *)
Lemma parse_data_ignores_context_example :
  parse_data ascii_only (lit "#?@" ++ example_line ++ lit ",EXTRA:1")
  = parse_data ascii_only example_line.
Proof.
  exact (parse_data_ignores_context ascii_only
           (lit "300.5") (lit "150.2") (lit "45.0") (lit "10.0")
           (lit "A") (lit "AUTO") (lit "Normal") (lit "Operando Normal")
           (lit "Cerrada") (lit "Cerrada") (lit "#?@") (lit ",EXTRA:1")
           eq_refl eq_refl eq_refl eq_refl eq_refl eq_refl eq_refl eq_refl
           eq_refl eq_refl eq_refl eq_refl).
Defined.


(** * More about the read loop *)

Section ReaderMore.
Context (U : UnicodeData).

Lemma lstrip_spaces ws s :
  forallb (re_s U) ws = true -> lstrip U (ws ++ s) = lstrip U s.
Proof.
  induction ws as [|c ws IH]; intros H; [reflexivity|].
  cbn [forallb] in H. apply andb_true_iff in H. destruct H as [Hc H].
  cbn [app lstrip]. rewrite Hc. now apply IH.
Qed.

Lemma lstrip_stop c s : re_s U c = false -> lstrip U (c :: s) = c :: s.
Proof. intros H. cbn [lstrip]. now rewrite H. Qed.

Lemma forallb_reverse (f : char -> bool) l :
  forallb f (reverse l) = forallb f l.
Proof.
  induction l as [|c l IH]; [reflexivity|].
  rewrite reverse_cons, forallb_app, IH. simpl. rewrite andb_true_r.
  apply andb_comm.
Qed.

Lemma strip_blank text : forallb (re_s U) text = true -> strip U text = [].
Proof.
  intros H. unfold strip.
  rewrite <- (app_nil_r text), lstrip_spaces by exact H. reflexivity.
Qed.

(** [strip] removes the whitespace around a text that starts and ends
    outside it. *)
Lemma strip_core ws1 ws2 c s d :
  forallb (re_s U) ws1 = true -> forallb (re_s U) ws2 = true ->
  re_s U c = false -> last (c :: s) = Some d -> re_s U d = false ->
  strip U (ws1 ++ (c :: s) ++ ws2) = c :: s.
Proof.
  intros H1 H2 Hc Hl Hd. unfold strip.
  rewrite lstrip_spaces by exact H1.
  change ((c :: s) ++ ws2) with (c :: (s ++ ws2)).
  rewrite lstrip_stop by exact Hc.
  change (c :: (s ++ ws2)) with ((c :: s) ++ ws2).
  rewrite reverse_app, lstrip_spaces by (now rewrite forallb_reverse).
  rewrite <- head_reverse in Hl.
  destruct (reverse (c :: s)) as [|d' r] eqn:E; [discriminate|].
  simpl in Hl. inversion Hl; subst d'.
  rewrite lstrip_stop by exact Hd. rewrite <- E. apply reverse_involutive.
Qed.

Lemma wire_line_ends p t mv sh f m esd estado relief purge d :
  last purge = Some d ->
  exists s, wire_line p t mv sh f m esd estado relief purge = ch "P" :: s
            /\ last (ch "P" :: s) = Some d.
Proof.
  intros Hd. unfold wire_line.
  change (lit "P:") with (ch "P" :: lit ":"). cbn [app].
  eexists. split; [reflexivity|].
  change (ch "P" :: ?x) with ([ch "P"] ++ x).
  repeat (rewrite last_app).
  now rewrite Hd.
Qed.

Lemma run_loop_app reads1 : forall reads2 self,
  running self = true -> existsb is_serial_exception reads1 = false ->
  run_loop U (reads1 ++ reads2) self
  = let '(self2, emitted2, rest2) := run_loop U reads2 self in
    (self2, (run_loop U reads1 self).1.2 ++ emitted2, rest2).
Proof.
  induction reads1 as [|r reads1 IH]; intros reads2 self Hrun H1.
  - simpl. now destruct (run_loop U reads2 self) as [[s2 e2] r2].
  - cbn [existsb] in H1. apply orb_false_iff in H1. destruct H1 as [Hr H1].
    cbn [app run_loop]. rewrite Hrun.
    destruct r; try discriminate.
    + rewrite (IH reads2 self Hrun H1).
      destruct (run_loop U reads2 self) as [[s2 e2] r2].
      destruct (run_loop U reads1 self) as [[s1 e1] r1]. simpl.
      now rewrite app_assoc.
    + now apply IH.
Qed.
End ReaderMore.

(** X3.  A read whose text is empty or all whitespace emits nothing, and no
    read emits more than one signal. *)
Theorem handle_text_blank (U : UnicodeData) (text : str) :
  (forallb (re_s U) text = true -> handle_text U text = [])
  /\ length (handle_text U text) <= 1.
Proof.
  split.
  - intros H. unfold handle_text. now rewrite strip_blank.
  - unfold handle_text. destruct (is_nil _); [simpl; lia|].
    destruct (parse_data U _) as [[d|]|e]; simpl; lia.
Qed.

(** A read that times out with nothing, and one with a bare line end. *)
Lemma handle_text_blank_example :
  handle_text ascii_only [] = []
  /\ handle_text ascii_only [13; 10]%N = [].
Proof.
  split.
  - exact (proj1 (handle_text_blank ascii_only []) eq_refl).
  - exact (proj1 (handle_text_blank ascii_only [13; 10]%N) eq_refl).
Defined.

(** X4.  A ten-field line whose numbers are float literals, read with
    whitespace before it and after it (the line end), emits exactly its
    record.  In an arbitrary table a word character could also be
    whitespace; the last character of the line is taken not to be. *)
Theorem handle_text_line (U : UnicodeData)
    p t mv sh f m esd estado relief purge vp vt vmv vsh ws1 ws2 d :
  field (cls_num U) p -> field (cls_num U) t -> field (cls_num U) mv ->
  field (cls_num U) sh -> field (re_w U) f -> field (re_w U) m ->
  field (re_w U) esd -> field (cls_estado U) estado ->
  field (re_w U) relief -> field (re_w U) purge ->
  py_float U p = Ret vp -> py_float U t = Ret vt ->
  py_float U mv = Ret vmv -> py_float U sh = Ret vsh ->
  forallb (re_s U) ws1 = true -> forallb (re_s U) ws2 = true ->
  last purge = Some d -> re_s U d = false ->
  handle_text U
    (ws1 ++ wire_line p t mv sh f m esd estado relief purge ++ ws2)
  = [{| P := vp; T := vt; MV := vmv; SH := vsh; F := f; M := m;
        ESD := esd; ESTADO := estado; RELIEF := relief; PURGE := purge |}].
Proof.
  intros Hp Ht Hmv Hsh Hf Hm Hesd Hest Hrel Hpur Fp Ft Fmv Fsh H1 H2 Hd Hsd.
  destruct (wire_line_ends p t mv sh f m esd estado relief purge d Hd)
    as (s & Hw & Hl).
  unfold handle_text.
  rewrite Hw, (strip_core U ws1 ws2 (ch "P") s d H1 H2 eq_refl Hl Hsd).
  cbn [is_nil]. rewrite <- Hw.
  rewrite parse_data_wire by assumption.
  now rewrite (build_data_ok U _ _ _ _ _ _ _ _ _ _ _ _ _ _ Fp Ft Fmv Fsh).
Qed.

(** The example line as the port delivers it, ended by CR LF. *)
Lemma handle_text_line_example :
  handle_text ascii_only (example_line ++ [13; 10]%N) = [example_data].
Proof.
  exact (handle_text_line ascii_only
           (lit "300.5") (lit "150.2") (lit "45.0") (lit "10.0")
           (lit "A") (lit "AUTO") (lit "Normal") (lit "Operando Normal")
           (lit "Cerrada") (lit "Cerrada") 300.5%Q 150.2%Q 45.0%Q 10.0%Q
           [] [13; 10]%N (ch "a")
           eq_refl eq_refl eq_refl eq_refl eq_refl eq_refl eq_refl eq_refl
           eq_refl eq_refl eq_refl eq_refl eq_refl eq_refl eq_refl eq_refl
           eq_refl eq_refl).
Defined.

(** X5.  While no read raises [serial.SerialException] the loop keeps no
    memory of earlier reads: on reads followed by more reads it emits what it
    emits on the first, then what it emits on the rest, and ends as on the
    rest.  Rejected lines, blank reads and other exceptions before a line do
    not change what the line emits. *)
Theorem run_app (U : UnicodeData) reads1 reads2 self :
  running self = true -> existsb is_serial_exception reads1 = false ->
  run U (reads1 ++ reads2) self
  = let '(self2, emitted2, rest2) := run U reads2 self in
    (self2, (run U reads1 self).1.2 ++ emitted2, rest2).
Proof.
  intros Hrun H1. rewrite !run_running by exact Hrun.
  now apply run_loop_app.
Qed.

(** A rejected line, an unexpected exception and a blank read, then the
    example line. *)
Lemma run_app_example :
  run ascii_only
    [ReadText (lit "P:1,T:2"); ReadException; ReadText [];
     ReadText example_line]
    (SerialReader_init true)
  = (SerialReader_init true, [example_data], []).
Proof.
  exact (run_app ascii_only
           [ReadText (lit "P:1,T:2"); ReadException; ReadText []]
           [ReadText example_line] (SerialReader_init true)
           eq_refl eq_refl).
Defined.

(** X6.  [stop] closes the port and clears [running] whatever the state of
    the reader; a second [stop] changes nothing; and a stopped reader, run
    again, asks for no read and emits nothing. *)
Theorem stop_final (U : UnicodeData) (self : SerialReader) :
  running (stop self) = false
  /\ ser_is_open (stop self) = false
  /\ stop (stop self) = stop self
  /\ forall reads, run U reads (stop self) = (stop self, [], reads).
Proof.
  unfold stop. destruct self as [r o]. simpl.
  destruct o; repeat split; reflexivity.
Qed.

(** * More about the circular store *)

Lemma newest_length_min h : length (newest h) = length h `min` MAX_POINTS.
Proof. unfold newest. rewrite length_drop. lia. Qed.

(** X7.  After any run the three arrays still have [MAX_POINTS] cells and
    the write counter is the number of samples written since the start; the
    snapshot is absent exactly when nothing was written, and otherwise its
    three series have the same length, the number of writes up to
    [MAX_POINTS]. *)
Theorem store_bounded (evs : list event) :
  let self := (run_events evs PlotterApp_init).1 in
  let w := (run_events evs PlotterApp_init).2 in
  length (x_data self) = MAX_POINTS
  /\ length (y1_data self) = MAX_POINTS
  /\ length (y2_data self) = MAX_POINTS
  /\ data_index self = length w
  /\ (snapshot self = None <-> w = [])
  /\ forall x y1 y2,
       snapshot self = Some (x, y1, y2) ->
       length x = length w `min` MAX_POINTS
       /\ length y1 = length x /\ length y2 = length x.
Proof.
  cbv zeta. pose proof (run_events_Stored evs) as HS.
  destruct (run_events evs PlotterApp_init) as [self w]. simpl in *.
  pose proof (snapshot_Stored self w HS) as Hsnap.
  unfold Stored, store_of in HS. destruct HS as (Hx & Hy1 & Hy2 & Hw & _).
  split; [|split; [|split; [|split; [|split]]]]; try assumption.
  - rewrite Hsnap. destruct w; split; intros H;
      try discriminate H; reflexivity.
  - intros x y1 y2 Hs. rewrite Hsnap in Hs.
    destruct w as [|smp w]; [discriminate|].
    unfold series in Hs. inversion Hs; subst x y1 y2.
    rewrite !length_fmap, newest_length_min. auto.
Qed.

Lemma passes_none fuel now e : (now < e)%Q -> passes fuel now e = 0.
Proof.
  intros H. destruct fuel as [|fuel]; [reflexivity|]. simpl.
  destruct (Qle_bool e now) eqn:E; [|reflexivity].
  apply Qle_bool_iff in E. lra.
Qed.

Lemma Qnat_nonneg n : (0 <= Qnat n)%Q.
Proof. unfold Qnat. change 0%Q with (inject_Z 0). rewrite <- Zle_Qle. lia. Qed.

(** X8.  Once a sample has been received, the gap synthesis leaves the
    latest update less than one interval behind the clock reading, never
    ahead of it unless it already was, and never earlier than before; run
    again at the same reading it writes nothing. *)
Theorem gap_synthesis_bound now self f lu p :
  first_data_time self = Some f -> last_update_time self = Some lu ->
  last_p self = Some p ->
  let self' := (gap_synthesis now self).1.1 in
  exists lu',
    last_update_time self' = Some lu'
    /\ (now < lu' + interval_s)%Q
    /\ ((lu <= now)%Q -> (lu' <= now)%Q)
    /\ (lu <= lu')%Q
    /\ (gap_synthesis now self').2 = [].
Proof.
  intros Hf Hl Hp. cbv zeta. pose proof interval_pos as Hi.
  destruct (gap_synthesis now self) as [[g added] w] eqn:Eg. simpl.
  destruct (gap_synthesis_spec _ _ _ _ _ _ _ _ Hf Hl Hp Eg)
    as (_ & _ & _ & Hf' & Hp' & _ & _ & Hl').
  cbv zeta in Hl'. set (m := passes _ now _) in *.
  change (lu + interval_s)%Q with (advance 0 lu + interval_s)%Q in Hl'.
  rewrite iter_times_chain in Hl'.
  pose proof (chain_last lu 0 m) as Hc.
  change (advance 0 lu) with lu in Hc. change (0 + m) with m in Hc.
  rewrite Hc in Hl'. clear Hc.
  exists (advance m lu).
  assert (Hexit : (now < advance m lu + interval_s)%Q).
  { pose proof (passes_exit _ now _
                  (dummy_fuel_enough now (lu + interval_s))) as Hx.
    fold m in Hx. rewrite advance_value. lra. }
  repeat apply conj.
  - exact Hl'.
  - exact Hexit.
  - intros Hlu. destruct (decide (m = 0)) as [E|E].
    + rewrite E. exact Hlu.
    + apply (passes_le (dummy_fuel now (lu + interval_s)) now (lu + interval_s)).
      fold m. change (lu + interval_s)%Q with (advance 0 lu + interval_s)%Q.
      rewrite iter_times_chain. unfold chain. apply list_elem_of_fmap.
      exists m. split; [reflexivity|]. apply elem_of_seq. lia.
  - rewrite advance_value. pose proof (Qnat_nonneg m). nra.
  - destruct (gap_synthesis now g) as [[g' added'] w'] eqn:Eg'. simpl.
    destruct (gap_synthesis_spec _ _ _ _ _ _ _ _ Hf' Hl' Hp' Eg') as (-> & _).
    cbv zeta. now rewrite passes_none.
Qed.

(** A tick 0.25 s after the sample of [fed_store]. *)
Lemma gap_synthesis_bound_example :
  exists lu',
    last_update_time (gap_synthesis 10.25 fed_store).1.1 = Some lu'
    /\ (10.25 < lu' + interval_s)%Q /\ (lu' <= 10.25)%Q.
Proof.
  destruct (gap_synthesis_bound 10.25 fed_store 10 10 300 eq_refl eq_refl eq_refl)
    as (lu' & H1 & H2 & H3 & _).
  exists lu'. repeat split; [exact H1|exact H2|].
  apply H3. vm_compute. discriminate.
Defined.

Lemma chain_position_unique lu now a b :
  (a = 0 \/ (advance a lu <= now)%Q) -> (now < advance a lu + interval_s)%Q ->
  (b = 0 \/ (advance b lu <= now)%Q) -> (now < advance b lu + interval_s)%Q ->
  a = b.
Proof.
  intros Ha Hxa Hb Hxb.
  rewrite advance_value in Hxa, Hxb.
  assert (H1 : a < S b).
  { destruct Ha as [->|Ha]; [lia|]. rewrite advance_value in Ha.
    apply Qnat_lt. rewrite Qnat_S. lra. }
  assert (H2 : b < S a).
  { destruct Hb as [->|Hb]; [lia|]. rewrite advance_value in Hb.
    apply Qnat_lt. rewrite Qnat_S. lra. }
  lia.
Qed.

(** X9.  How often the timer fires during a silence does not matter: ticks
    handled no later than [now] and then a tick at [now] write the same
    samples, and leave the same arrays and write counter, as the one tick at
    [now], whichever of the drawings fail. *)
Theorem ticks_coalesce ticks now ok ok' self f lu p t :
  first_data_time self = Some f -> last_update_time self = Some lu ->
  last_p self = Some p -> last_t self = Some t ->
  forallb (tick_before now) ticks = true ->
  (run_events (ticks ++ [Tick now ok]) self).2
  = (run_events [Tick now ok'] self).2
  /\ store_of (run_events (ticks ++ [Tick now ok]) self).1
     = store_of (run_events [Tick now ok'] self).1.
Proof.
  intros Hf Hl Hp Ht Hticks.
  assert (Hw : (run_events (ticks ++ [Tick now ok]) self).2
               = (run_events [Tick now ok'] self).2).
  { destruct (ticks_chain f lu p t now ticks self 0 Hf Hl Hp Ht
                (or_introl eq_refl) Hticks)
      as (j & _ & Hbj & Hws & Hfs & Hls & Hps & Hts & _).
    rewrite run_events_app.
    destruct (run_events ticks self) as [self1 w1]. simpl in *.
    pose proof (update_plots_fields now ok self1) as Hu. cbv zeta in Hu.
    destruct (update_plots now ok self1) as [[u r] w]. simpl in Hu.
    destruct Hu as (Hw & _).
    destruct (gap_synthesis now self1) as [[g added] w'] eqn:Eg.
    simpl in Hw. subst w'.
    destruct (gap_synthesis_chain _ _ _ _ _ _ _ _ _ _ Hfs Hls Hps Hts Eg)
      as (m & Hwm & _ & _ & _ & _ & _ & _ & Hle & Hexit).
    pose proof (update_plots_fields now ok' self) as Hu'. cbv zeta in Hu'.
    destruct (update_plots now ok' self) as [[u' r'] w0]. simpl in Hu'.
    destruct Hu' as (Hw0 & _).
    destruct (gap_synthesis now self) as [[g0 added0] w0'] eqn:Eg0.
    simpl in Hw0. subst w0'.
    destruct (gap_synthesis_chain now self f lu p t 0 _ _ _ Hf Hl Hp Ht Eg0)
      as (m0 & Hwm0 & _ & _ & _ & _ & _ & _ & Hle0 & Hexit0).
    simpl in Hwm0, Hle0, Hexit0.
    assert (Hm : j + m = m0).
    { apply (chain_position_unique lu now); try assumption.
      - destruct (decide (m = 0)) as [->|Hne].
        + rewrite Nat.add_0_r. exact Hbj.
        + right. apply Hle. lia.
      - destruct (decide (m0 = 0)) as [->|Hne]; [now left|].
        right. apply Hle0. lia. }
    simpl. rewrite !app_nil_r, Hws, Hwm, Hwm0. unfold dummies.
    rewrite <- fmap_app, Nat.sub_0_r.
    replace (S j) with (1 + j) by lia. rewrite chain_app. now rewrite Hm. }
  split; [exact Hw|]. now rewrite !run_events_store, Hw.
Qed.

(** Five ticks in 0.35 s against one tick after 0.35 s. *)
Lemma ticks_coalesce_example :
  (run_events (early_ticks ++ [Tick 10.35 true]) fed_store).2
  = (run_events [Tick 10.35 true] fed_store).2.
Proof.
  exact (proj1 (ticks_coalesce early_ticks 10.35 true true fed_store
                  10 10 300 150 eq_refl eq_refl eq_refl eq_refl eq_refl)).
Defined.

Lemma nondecreasing_app l1 : forall lo l2,
  nondecreasing lo l1 ->
  nondecreasing (match last l1 with Some x => Some x | None => lo end) l2 ->
  nondecreasing lo (l1 ++ l2).
Proof.
  induction l1 as [|x l1 IH]; intros lo l2 H1 H2; simpl in *; [assumption|].
  destruct H1 as [Hx H1]. split; [assumption|].
  apply IH; [assumption|]. rewrite last_cons in H2. now destruct (last l1).
Qed.

Lemma ascending_nondecreasing l : forall lo a,
  match lo with Some b => (a <= b)%Q | None => True end ->
  ascending lo l -> nondecreasing (match lo with Some _ => Some a | None => None end) l.
Proof.
  induction l as [|x l IH]; intros lo a Ha H; simpl in *; [trivial|].
  destruct H as [Hx H]. split.
  - destruct lo as [b|]; [lra|trivial].
  - apply (IH (Some x) x); [simpl; lra|exact H].
Qed.

Lemma nondecreasing_lower l : forall a,
  nondecreasing (Some a) l -> Forall (fun x => (a <= x)%Q) l.
Proof.
  induction l as [|x l IH]; intros a H; constructor; simpl in H.
  - tauto.
  - destruct H as [Hx H]. apply IH in H.
    eapply Forall_impl; [exact H|]. simpl. intros y Hy. lra.
Qed.

(** One event handled no earlier than the one before: what it writes is not
    below the latest write and nowhere decreasing. *)
Lemma step_nondecreasing e self lo :
  Timed self lo -> nondecreasing lo [event_time e] ->
  Timed (step e self).1 (Some (event_time e))
  /\ nondecreasing (last_time self) (sample_time <$> (step e self).2)
  /\ last_time (step e self).1
     = match last (sample_time <$> (step e self).2) with
       | Some x => Some x
       | None => last_time self
       end.
Proof.
  pose proof interval_pos as Hi.
  unfold Timed, last_time. intros HT [Hlo _].
  destruct e as [now d|now ok]; simpl; simpl in Hlo.
  - destruct (first_data_time self) as [f|], (last_update_time self) as [lu|],
      (last_p self) as [p|]; try tauto; unfold sample_time; simpl.
    + destruct lo as [b|]; [|tauto]. repeat split; lra.
    + repeat split. lra.
  - pose proof (update_plots_fields now ok self) as Hu. cbv zeta in Hu.
    destruct (update_plots now ok self) as [[u r] w]. simpl in *.
    destruct Hu as (-> & _ & -> & -> & _ & ->).
    destruct (first_data_time self) as [f|] eqn:Hf;
      destruct (last_update_time self) as [lu|] eqn:Hl;
      destruct (last_p self) as [p|] eqn:Hp; try tauto.
    + destruct lo as [b|]; [|tauto].
      destruct (gap_synthesis now self) as [[g added] w'] eqn:Eg.
      destruct (gap_synthesis_spec _ _ _ _ _ _ _ _ Hf Hl Hp Eg)
        as (Hw & _ & _ & Hf' & Hp' & _ & _ & Hl').
      simpl. rewrite Hf', Hp', Hl', Hw, dummies_times.
      set (es := iter_times _ _) in *.
      rewrite fmap_last. repeat apply conj.
      * destruct (last es) as [e'|] eqn:El; simpl; [|lra].
        eapply passes_le. apply last_Some_elem_of in El. exact El.
      * apply (ascending_nondecreasing _ (Some (lu - f)%Q) (lu - f)%Q);
          [simpl; lra|].
        apply ascending_iter_times. lra.
      * now destruct (last es).
    + rewrite gap_synthesis_idle by (rewrite Hf; auto). simpl.
      rewrite Hf, Hl, Hp. auto.
Qed.

Lemma run_events_nondecreasing evs : forall self lo,
  Timed self lo -> nondecreasing lo (event_time <$> evs) ->
  nondecreasing (last_time self) (sample_time <$> (run_events evs self).2).
Proof.
  induction evs as [|e evs IH]; intros self lo HT Hasc; simpl; [trivial|].
  simpl in Hasc. destruct Hasc as [Hlo Hasc].
  destruct (step_nondecreasing e self lo HT) as (HT' & Hw & Hlast);
    [simpl; tauto|].
  specialize (IH (step e self).1 _ HT' Hasc).
  destruct (step e self) as [self' w]. simpl in *.
  destruct (run_events evs self') as [self'' ws]. simpl in *.
  rewrite fmap_app. apply nondecreasing_app; [assumption|].
  now rewrite <- Hlast.
Qed.

Lemma run_events_first evs :
  head (run_events evs PlotterApp_init).2
  = match first_real evs with
    | Some (now, d) => Some ((now - now)%Q, P d, T d)
    | None => None
    end.
Proof.
  induction evs as [|e evs IH]; [reflexivity|].
  destruct e as [now d|now ok].
  - clear IH. cbn [run_events step first_real].
    unfold receive_data at 1. cbn [first_data_time PlotterApp_init].
    now destruct (run_events evs _) as [s ws].
  - cbn [run_events step first_real].
    rewrite update_plots_idle by reflexivity.
    destruct (run_events evs PlotterApp_init) as [s ws]. exact IH.
Qed.

(** X10.  In any run the first sample written is the first sample received,
    at relative time zero: ticks handled before it write nothing. *)
Theorem first_sample_at_zero (evs : list event) :
  let w := (run_events evs PlotterApp_init).2 in
  head w = match first_real evs with
           | Some (now, d) => Some ((now - now)%Q, P d, T d)
           | None => None
           end
  /\ (forall smp, head w = Some smp -> (sample_time smp == 0)%Q)
  /\ (first_real evs = None -> w = []).
Proof.
  cbv zeta. pose proof (run_events_first evs) as H. repeat apply conj.
  - exact H.
  - intros smp Hs. rewrite H in Hs. destruct (first_real evs) as [[now d]|];
      [|discriminate]. inversion Hs; subst. unfold sample_time; simpl. lra.
  - intros Hn. rewrite Hn in H. now destruct (run_events evs _).2.
Qed.

(** X11.  In a run whose events are handled at readings of the clock that
    never go back, the relative times of the samples written never decrease
    and none is negative. *)
Theorem relative_time_nondecreasing (evs : list event) :
  nondecreasing None (event_time <$> evs) ->
  let times := sample_time <$> (run_events evs PlotterApp_init).2 in
  nondecreasing None times /\ Forall (fun x => (0 <= x)%Q) times.
Proof.
  intros Hclock. cbv zeta.
  pose proof (run_events_nondecreasing evs PlotterApp_init None Timed_init
                Hclock) as Hnd.
  unfold last_time in Hnd. simpl in Hnd. split; [exact Hnd|].
  pose proof (run_events_first evs) as Hfirst.
  destruct (run_events evs PlotterApp_init).2 as [|smp w]; [constructor|].
  simpl in Hfirst. destruct (first_real evs) as [[now d]|]; [|discriminate].
  inversion Hfirst; subst smp. simpl in Hnd. destruct Hnd as [_ Hnd].
  apply nondecreasing_lower in Hnd. unfold sample_time in *. simpl in *.
  constructor; [lra|].
  eapply Forall_impl; [exact Hnd|]. simpl. intros y Hy. lra.
Qed.

(** Two samples at one reading of the clock, then a tick. *)
Lemma relative_time_nondecreasing_example :
  nondecreasing None
    (sample_time <$>
       (run_events [Receive 10 (reading 300 150);
                    Receive 10 (reading 301 151); Tick 10.2 true]
                   PlotterApp_init).2).
Proof.
  refine (proj1 (relative_time_nondecreasing _ _)).
  simpl. repeat split; vm_compute; discriminate.
Defined.

Lemma x_limits_nonempty x :
  x <> [] ->
  exists xmin xlast,
    head x = Some xmin /\ last x = Some xlast
    /\ x_limits x = Some (xmin, (xlast + interval_s * 2)%Q).
Proof.
  intros Hx. unfold x_limits.
  destruct x as [|a x]; [congruence|]. simpl head.
  destruct (last (a :: x)) as [b|] eqn:El.
  - eauto.
  - apply last_None in El. discriminate.
Qed.

(** X12.  When a tick of a run draws, the three series it hands to the plot
    are those of the newest samples written, the ones of this tick
    included, oldest first; the x axis goes from the oldest time shown to
    two intervals after the newest; and the dirty flag is cleared. *)
Theorem redraw_shows_newest evs now ok x y1 y2 lim :
  let self := (run_events evs PlotterApp_init).1 in
  let w := (run_events evs PlotterApp_init).2 in
  (update_plots now ok self).1.2 = Redraw x y1 y2 lim ->
  (x, y1, y2) = series (newest (w ++ (update_plots now ok self).2))
  /\ (exists xmin xlast,
        head x = Some xmin /\ last x = Some xlast
        /\ lim = Some (xmin, (xlast + interval_s * 2)%Q))
  /\ plot_dirty (update_plots now ok self).1.1 = false.
Proof.
  cbv zeta. pose proof (run_events_Stored evs) as HS.
  destruct (run_events evs PlotterApp_init) as [self w]. cbn [fst snd] in *.
  pose proof (gap_synthesis_store now self) as Hst.
  unfold update_plots.
  destruct (gap_synthesis now self) as [[g added] wt]. simpl in Hst.
  pose proof (Stored_foldl wt _ _ HS) as HS'. rewrite <- Hst in HS'.
  pose proof (snapshot_Stored g _ HS') as Hsnap.
  destruct (plot_dirty g || added)%bool; [|discriminate].
  destruct (snapshot g) as [[[x' y1'] y2']|]; [|discriminate].
  destruct ok; [|discriminate]. simpl. intros Hr.
  inversion Hr; subst x' y1' y2' lim; clear Hr.
  destruct (w ++ wt) as [|smp h] eqn:Eh; [discriminate|].
  rewrite <- Eh in Hsnap |- *.
  assert (Hser : (x, y1, y2) = series (newest (w ++ wt))) by congruence.
  split; [exact Hser|]. split; [|reflexivity].
  apply x_limits_nonempty. intros Hx.
  unfold series in Hser. injection Hser as Hx' _ _.
  rewrite Hx in Hx'. apply (f_equal length) in Hx'.
  rewrite length_fmap, newest_length_min, Eh in Hx'. cbn [length] in Hx'.
  pose proof MAX_POINTS_pos. lia.
Qed.

(** The first tick after the first sample. *)
Lemma redraw_shows_newest_example :
  ([0%Q], [300%Q], [150%Q])
  = series (newest ((run_events [Receive 10 (reading 300 150)]
                       PlotterApp_init).2
                    ++ (update_plots 10.05 true fed_store).2)).
Proof.
  refine (proj1 (redraw_shows_newest [Receive 10 (reading 300 150)]
                   10.05%Q true [(10 - 10)%Q] [300%Q] [150%Q]
                   (Some ((10 - 10)%Q, (10 - 10 + interval_s * 2)%Q)) _)).
  vm_compute. reflexivity.
Defined.

Lemma has_word_context ws s pre post :
  has_word ws s -> has_word ws (pre ++ s ++ post).
Proof.
  intros (w & Hw & a & b & ->). exists w. split; [exact Hw|].
  exists (pre ++ a), (b ++ post). now rewrite <- !app_assoc.
Qed.

(** X13.  The severity of a status never falls when text is added around
    it: a critical status stays critical, and a warning does not become
    nominal. *)
Theorem classify_context (estado pre post : str) :
  (classify estado = critical ->
   classify (pre ++ estado ++ post) = critical)
  /\ (classify estado = warning ->
      classify (pre ++ estado ++ post) <> nominal).
Proof.
  unfold classify, status_background.
  pose proof (existsb_str_in critical_words estado) as Hc.
  pose proof (existsb_str_in warning_words estado) as Hw.
  pose proof (existsb_str_in critical_words (pre ++ estado ++ post)) as Hc'.
  pose proof (existsb_str_in warning_words (pre ++ estado ++ post)) as Hw'.
  set (c := existsb (fun word => str_in word estado) critical_words) in *.
  set (w := existsb (fun word => str_in word estado) warning_words) in *.
  set (c' := existsb (fun word => str_in word (pre ++ estado ++ post))
               critical_words) in *.
  set (w' := existsb (fun word => str_in word (pre ++ estado ++ post))
               warning_words) in *.
  assert (Hcc : c = true -> c' = true).
  { intros E. apply Hc', has_word_context, Hc, E. }
  assert (Hww : w = true -> w' = true).
  { intros E. apply Hw', has_word_context, Hw, E. }
  destruct c, w; simpl; split; intros H; try discriminate H;
    try (rewrite (Hcc eq_refl); reflexivity).
  rewrite (Hww eq_refl). destruct c'; discriminate.
Qed.

(** A critical word inside a longer status. *)
Lemma classify_context_example :
  classify (lit "Estado: " ++ lit "Purga" ++ lit " en curso") = critical.
Proof.
  exact (proj1 (classify_context (lit "Purga") (lit "Estado: ")
                  (lit " en curso")) eq_refl).
Defined.

(** * The clock format *)

Lemma digits_value_snoc ds d :
  digits_value (ds ++ [d]) = (10 * digits_value ds + d)%N.
Proof. unfold digits_value. now rewrite fold_left_app. Qed.

Lemma digits_snoc ds d :
  digits ds = true -> N.ltb d 10 = true -> digits (ds ++ [d]) = true.
Proof.
  unfold digits. intros H1 H2. rewrite forallb_app, H1. simpl. now rewrite H2.
Qed.

(** With fuel for the binary digits of [n], [decimal_fuel] writes all the
    decimal digits: they spell [n]. *)
Lemma decimal_fuel_spec fuel : forall n acc,
  (n < 2 ^ N.of_nat (S fuel))%N ->
  exists ds,
    decimal_fuel (S fuel) n acc = ds ++ acc
    /\ digits ds = true /\ digits_value ds = n
    /\ 1 <= length ds
    /\ ((n < 10)%N -> length ds = 1)
    /\ ((n < 100)%N -> length ds <= 2).
Proof.
  assert (Hlast : forall n acc, (n / 10 = 0)%N ->
            exists ds, (n mod 10)%N :: acc = ds ++ acc
              /\ digits ds = true /\ digits_value ds = n
              /\ 1 <= length ds
              /\ ((n < 10)%N -> length ds = 1)
              /\ ((n < 100)%N -> length ds <= 2)).
  { intros n acc E.
    assert (Hmod : (n mod 10 < 10)%N) by (apply N.mod_upper_bound; lia).
    pose proof (N.div_mod n 10 ltac:(lia)) as Hdm.
    exists [(n mod 10)%N]. repeat split; try (simpl; lia).
    - unfold digits. simpl. rewrite andb_true_r. now apply N.ltb_lt.
    - unfold digits_value. simpl. lia. }
  induction fuel as [|fuel IH]; intros n acc Hn.
  - cbn [decimal_fuel].
    assert (E : (n / 10 = 0)%N).
    { apply N.div_small. change (2 ^ N.of_nat 1)%N with 2%N in Hn. lia. }
    rewrite E. simpl. now apply Hlast.
  - cbn [decimal_fuel] in *.
    assert (Hmod : (n mod 10 < 10)%N) by (apply N.mod_upper_bound; lia).
    pose proof (N.div_mod n 10 ltac:(lia)) as Hdm.
    destruct (N.eqb_spec (n / 10) 0) as [E|E]; [now apply Hlast|].
    assert (Hq : (n / 10 < 2 ^ N.of_nat (S fuel))%N).
    { rewrite (Nat2N.inj_succ (S fuel)), N.pow_succ_r' in Hn.
      apply N.Div0.div_lt_upper_bound. lia. }
    destruct (IH (n / 10)%N ((n mod 10)%N :: acc) Hq)
      as (ds & Hds & Hdig & Hval & Hlen & Hone & Htwo).
    exists (ds ++ [(n mod 10)%N]). repeat split.
    + rewrite Hds, <- app_assoc. reflexivity.
    + apply digits_snoc; [exact Hdig|now apply N.ltb_lt].
    + rewrite digits_value_snoc, Hval. lia.
    + rewrite length_app. simpl. lia.
    + intros Hlt. assert (n / 10 = 0)%N by (apply N.div_small; lia). lia.
    + intros Hlt. rewrite length_app. simpl.
      assert (n / 10 < 10)%N by (apply N.Div0.div_lt_upper_bound; lia).
      specialize (Hone ltac:(assumption)). lia.
Qed.

Lemma decimal_spec n :
  digits (decimal n) = true /\ digits_value (decimal n) = n
  /\ 1 <= length (decimal n)
  /\ ((n < 100)%N -> length (decimal n) <= 2).
Proof.
  unfold decimal.
  assert (Hn : (n < 2 ^ N.of_nat (S (N.to_nat (N.log2 n))))%N).
  { rewrite Nat2N.inj_succ, N2Nat.id.
    destruct (N.eq_dec n 0%N) as [->|Hne]; [reflexivity|].
    apply N.log2_spec. lia. }
  destruct (decimal_fuel_spec _ n [] Hn) as (ds & -> & H1 & H2 & H3 & _ & H4).
  rewrite app_nil_r. auto.
Qed.

Lemma digits_value_zeros k ds :
  digits_value (replicate k 0%N ++ ds) = digits_value ds.
Proof.
  induction k as [|k IH]; [reflexivity|]. simpl.
  unfold digits_value in *. simpl. exact IH.
Qed.

(** A number that is not negative, in the format [02d]: at least two
    digits, which spell it. *)
Lemma format_02d_nonneg z :
  (0 <= z)%Z ->
  exists ds,
    format_02d z = digit_char <$> ds
    /\ digits ds = true /\ Z.of_N (digits_value ds) = z
    /\ 2 <= length ds
    /\ ((z < 100)%Z -> length ds = 2).
Proof.
  intros Hz. unfold format_02d.
  replace (z <? 0)%Z with false by (symmetry; apply Z.ltb_ge; lia).
  destruct (decimal_spec (Z.to_N z)) as (Hdig & Hval & Hlen & Htwo).
  exists (replicate (2 - length (decimal (Z.to_N z))) 0%N ++ decimal (Z.to_N z)).
  repeat split.
  - rewrite fmap_app, fmap_replicate. reflexivity.
  - unfold digits in *. rewrite forallb_app, Hdig, andb_true_r.
    apply forallb_forall. intros d Hd. apply list_elem_of_In in Hd.
    apply elem_of_replicate in Hd. destruct Hd as [-> _]. reflexivity.
  - rewrite digits_value_zeros, Hval. lia.
  - rewrite length_app, length_replicate. lia.
  - intros Hlt. rewrite length_app, length_replicate.
    assert (Z.to_N z < 100)%N by lia. specialize (Htwo ltac:(assumption)). lia.
Qed.

Lemma py_int_nonneg x : (0 <= x)%Q -> py_int x = Qfloor x.
Proof.
  intros Hx. unfold py_int, Qfloor. destruct x as [n d]. simpl.
  apply Z.quot_div_nonneg; [|lia].
  unfold Qle in Hx. simpl in Hx. lia.
Qed.

(** X14.  For a time that is not negative, [time_formatter] writes minutes,
    a colon and seconds: at least two digits of minutes, exactly two of
    seconds, below 60, and together they spell the whole seconds of the
    time. *)
Theorem time_formatter_decodes (x : Q) :
  (0 <= x)%Q ->
  exists dm ds,
    time_formatter x = (digit_char <$> dm) ++ ch ":" :: (digit_char <$> ds)
    /\ digits dm = true /\ digits ds = true
    /\ 2 <= length dm /\ length ds = 2
    /\ (digits_value ds < 60)%N
    /\ (Z.of_N (digits_value dm) * 60 + Z.of_N (digits_value ds)
        = Qfloor x)%Z.
Proof.
  intros Hx. unfold time_formatter. rewrite (py_int_nonneg x Hx).
  assert (Hfl : (0 <= Qfloor x)%Z).
  { change 0%Z with (Qfloor 0). now apply Qfloor_resp_le. }
  set (total := Qfloor x) in *.
  assert (Hmin : (0 <= total / 60)%Z) by (apply Z.div_pos; lia).
  pose proof (Z.mod_pos_bound total 60 ltac:(lia)) as Hsec.
  destruct (format_02d_nonneg _ Hmin) as (dm & -> & Hdm & Hvm & Hlm & _).
  destruct (format_02d_nonneg (total mod 60)%Z ltac:(lia))
    as (ds & -> & Hds & Hvs & _ & Hls).
  exists dm, ds. repeat split; try assumption.
  - apply Hls. lia.
  - lia.
  - rewrite Hvm, Hvs. pose proof (Z.div_mod total 60 ltac:(lia)). lia.
Qed.

(** 754.9 s is [12:34]. *)
Lemma time_formatter_decodes_example :
  exists dm ds,
    time_formatter 754.9
    = (digit_char <$> dm) ++ ch ":" :: (digit_char <$> ds)
    /\ (Z.of_N (digits_value dm) * 60 + Z.of_N (digits_value ds)
        = Qfloor 754.9)%Z.
Proof.
  destruct (time_formatter_decodes 754.9 ltac:(vm_compute; discriminate))
    as (dm & ds & H1 & _ & _ & _ & _ & _ & H2).
  exists dm, ds. split; [exact H1|exact H2].
Defined.

(** * Finding the port *)

Lemma find_port_NotFound (ports : list (str * open_outcome)) :
  find_port ports = NotFound ->
  forallb (fun p => recoverable p.2) ports = true.
Proof.
  induction ports as [|[d o] ports IH]; [reflexivity|].
  destruct o; cbn [find_port forallb snd recoverable]; try discriminate;
    exact IH.
Qed.

Lemma find_port_all_fail (ports : list (str * open_outcome)) :
  forallb (fun p => recoverable p.2) ports = true ->
  find_port ports = NotFound.
Proof.
  induction ports as [|[d o] ports IH]; [reflexivity|].
  destruct o; cbn [find_port forallb snd recoverable]; try discriminate;
    exact IH.
Qed.

(** X15.  [find_port] returns the first listed port that opens, having
    passed over ports only for [SerialException] or [OSError]; it returns
    [None] exactly when every listed port fails in one of these two ways. *)
Theorem find_port_first (ports : list (str * open_outcome)) :
  (forall device,
      find_port ports = Found device <->
      exists pre post,
        ports = pre ++ (device, Opens) :: post
        /\ forallb (fun p => recoverable p.2) pre = true)
  /\ (find_port ports = NotFound <->
      forallb (fun p => recoverable p.2) ports = true).
Proof.
  induction ports as [|[d o] ports [IHf IHn]].
  - split.
    + intros device. split; [discriminate|].
      intros (pre & post & H & _). destruct pre; discriminate.
    + split; reflexivity.
  - split.
    + intros device. destruct o; cbn [find_port].
      * split.
        -- intros H. inversion H; subst. now exists [], ports.
        -- intros (pre & post & H & Hpre). destruct pre as [|[d' o'] pre].
           ++ now inversion H.
           ++ inversion H; subst. discriminate Hpre.
      * rewrite IHf. split.
        -- intros (pre & post & -> & Hpre).
           now exists ((d, RaisesSerialException) :: pre), post.
        -- intros (pre & post & H & Hpre). destruct pre as [|[d' o'] pre];
             inversion H; subst. simpl in Hpre. eauto.
      * rewrite IHf. split.
        -- intros (pre & post & -> & Hpre).
           now exists ((d, RaisesOSError) :: pre), post.
        -- intros (pre & post & H & Hpre). destruct pre as [|[d' o'] pre];
             inversion H; subst. simpl in Hpre. eauto.
      * split; [discriminate|].
        intros (pre & post & H & Hpre). destruct pre as [|[d' o'] pre];
          inversion H; subst. discriminate Hpre.
    + destruct o; cbn [find_port forallb snd recoverable];
        try (split; discriminate); rewrite IHn; reflexivity.
Qed.

(** A port that is busy, then one that opens. *)
Lemma find_port_first_example :
  find_port [(lit "COM1", RaisesSerialException); (lit "COM3", Opens);
             (lit "COM4", Opens)]
  = Found (lit "COM3").
Proof.
  apply (proj1 (find_port_first _)).
  exists [(lit "COM1", RaisesSerialException)], [(lit "COM4", Opens)].
  split; reflexivity.
Defined.

(** X16.  [start_serial] ends the process, with status 1, exactly when
    every listed port fails with [SerialException] or [OSError] or the port
    found has an empty name.  When the port found does not open a second
    time the process goes on, with a reader that asks for no read and emits
    nothing. *)
Theorem start_serial_cases (ports : list (str * open_outcome)) (opened : bool) :
  (forall status,
      start_serial ports opened = Exits status <->
      status = 1
      /\ (forallb (fun p => recoverable p.2) ports = true
          \/ find_port ports = Found []))
  /\ (forall reader,
      start_serial ports opened = Starts reader ->
      (exists device, find_port ports = Found device /\ device <> [])
      /\ reader = SerialReader_init opened
      /\ (opened = false ->
          forall U reads, run U reads reader = (reader, [], reads))).
Proof.
  unfold start_serial. split.
  - intros status. split.
    + intros H. destruct (find_port ports) as [device| |] eqn:E;
        try discriminate.
      * destruct device; [|discriminate]. inversion H. auto.
      * inversion H. split; [reflexivity|]. left.
        now apply find_port_NotFound.
    + intros [-> [H|H]].
      * now rewrite (find_port_all_fail ports H).
      * now rewrite H.
  - intros reader H. destruct (find_port ports) as [device| |] eqn:E;
      try discriminate.
    destruct device as [|c device]; [discriminate|]. inversion H.
    repeat split.
    + now exists (c :: device).
    + intros ->. reflexivity.
Qed.

(** The port opens in the search and not again: no exit, and a reader that
    stays silent. *)
Lemma start_serial_cases_example :
  run ascii_only [ReadText example_line] (SerialReader_init false)
  = (SerialReader_init false, [], [ReadText example_line]).
Proof.
  exact (proj2 (proj2 (proj2 (start_serial_cases [(lit "COM3", Opens)] false)
                         (SerialReader_init false) eq_refl))
           eq_refl ascii_only [ReadText example_line]).
Defined.

(** * The labels *)

Section LabelFacts.
Import Widgets.
Context (format_1f : Q -> str) (start_time : Q).

(** When every key is there, all the statements run, and the label under a
    key is what its own statements make of it. *)
Lemma do_all_lookup ops : forall labels : gmap string QLabel,
  (forall op, op ∈ ops -> is_Some (labels !! op.1)) ->
  (do_all ops labels).2 = true
  /\ forall k, (do_all ops labels).1 !! k = apply_ops k ops <$> labels !! k.
Proof.
  induction ops as [|[key f] ops IH]; intros labels Hkeys.
  - split; [reflexivity|]. intros k. simpl. now destruct (labels !! k).
  - cbn [do_all].
    destruct (Hkeys (key, f) ltac:(left)) as [l Hl]. simpl in Hl. rewrite Hl.
    destruct (IH (<[key := f l]> labels)) as [Hok Hlook].
    { intros op Hop. apply lookup_insert_is_Some'. right.
      apply Hkeys. now right. }
    split; [exact Hok|]. intros k. rewrite Hlook.
    unfold apply_ops. cbn [foldl fst snd].
    destruct (decide (key = k)) as [->|Hne].
    + rewrite lookup_insert_eq, Hl, bool_decide_eq_true_2 by reflexivity.
      reflexivity.
    + rewrite lookup_insert_ne, bool_decide_eq_false_2 by assumption.
      reflexivity.
Qed.

Lemma do_all_dom ops (labels : gmap string QLabel) :
  (forall op, op ∈ ops -> is_Some (labels !! op.1)) ->
  dom (do_all ops labels).1 = dom labels.
Proof.
  intros Hkeys. destruct (do_all_lookup ops labels Hkeys) as [_ Hlook].
  apply set_eq. intros k. rewrite !elem_of_dom, Hlook. apply fmap_is_Some.
Qed.

Lemma ready_lookup (labels : gmap string QLabel) k :
  ready labels -> k ∈ all_keys -> is_Some (labels !! k).
Proof.
  intros Hr Hk. apply elem_of_dom. rewrite Hr. now apply elem_of_list_to_set.
Qed.

Lemma label_statements_keys data op :
  op ∈ label_statements format_1f data -> op.1 ∈ all_keys.
Proof.
  unfold label_statements, update_label_styles. cbn [fmap list_fmap app].
  intros H.
  repeat (apply elem_of_cons in H; destruct H as [->|H];
          [cbn [fst setText setStyleSheet]; unfold all_keys;
           repeat (first [apply list_elem_of_here | apply list_elem_of_further])|]).
  inversion H.
Qed.

Lemma setup_labels_ready : ready setup_labels.
Proof.
  unfold ready, setup_labels, labels_config, all_keys. cbn [foldl].
  rewrite !dom_insert_L, dom_empty_L. cbn [list_to_set]. set_solver.
Qed.

Lemma update_labels_immediate_ready data labels :
  ready labels ->
  (do_all (label_statements format_1f data) labels).2 = true
  /\ ready (update_labels_immediate format_1f data labels)
  /\ forall k, update_labels_immediate format_1f data labels !! k
               = apply_ops k (label_statements format_1f data) <$> labels !! k.
Proof.
  intros Hr.
  assert (Hkeys : forall op, op ∈ label_statements format_1f data ->
                             is_Some (labels !! op.1)).
  { intros op Hop. apply (ready_lookup _ _ Hr), (label_statements_keys _ _ Hop). }
  destruct (do_all_lookup _ labels Hkeys) as [Hok Hlook].
  repeat split; [exact Hok| |exact Hlook].
  unfold ready, update_labels_immediate. now rewrite do_all_dom.
Qed.

Lemma update_time_label_ready now labels :
  ready labels ->
  exists labels',
    update_time_label now start_time labels = Some labels'
    /\ ready labels'
    /\ forall k, labels' !! k
                 = apply_ops k [setText "time"
                                  (lit "Tiempo Transcurrido: "
                                   ++ time_str now start_time)]
                     <$> labels !! k.
Proof.
  intros Hr. unfold update_time_label.
  set (ops := [setText "time" _]).
  assert (Hkeys : forall op, op ∈ ops -> is_Some (labels !! op.1)).
  { intros op Hop. apply list_elem_of_singleton in Hop. subst op.
    apply (ready_lookup _ _ Hr). unfold all_keys. cbn [fst setText].
    repeat (first [apply list_elem_of_here | apply list_elem_of_further]). }
  destruct (do_all_lookup ops labels Hkeys) as [Hok Hlook].
  pose proof (do_all_dom ops labels Hkeys) as Hdom.
  destruct (do_all ops labels) as [labels' ok]. simpl in *. subst ok.
  exists labels'. repeat split; [|exact Hlook].
  unfold ready. now rewrite Hdom.
Qed.
End LabelFacts.

(** X17.  Once [setup_labels] has run, no later update finds a label
    missing: the dictionary keeps its eight keys, every statement of
    [update_labels_immediate] runs, [update_time_label] raises no
    [KeyError], and so it stays through any run of samples and timer
    ticks. *)
Theorem labels_never_missing (format_1f : Q -> str) (start_time : Q) :
  ready Widgets.setup_labels
  /\ (forall data labels,
        ready labels ->
        (Widgets.do_all (Widgets.label_statements format_1f data) labels).2
        = true
        /\ ready (Widgets.update_labels_immediate format_1f data labels))
  /\ (forall now labels,
        ready labels ->
        exists labels',
          Widgets.update_time_label now start_time labels = Some labels'
          /\ ready labels')
  /\ (forall evs,
        exists labels',
          Widgets.run_ui format_1f start_time evs Widgets.setup_labels
          = Some labels'
          /\ ready labels').
Proof.
  repeat apply conj.
  - apply setup_labels_ready.
  - intros data labels Hr.
    destruct (update_labels_immediate_ready format_1f data labels Hr)
      as (H1 & H2 & _). auto.
  - intros now labels Hr.
    destruct (update_time_label_ready start_time now labels Hr)
      as (labels' & H1 & H2 & _). eauto.
  - intros evs. generalize Widgets.setup_labels, setup_labels_ready.
    induction evs as [|e evs IH]; intros labels Hr.
    + exists labels. auto.
    + cbn [Widgets.run_ui]. destruct e as [data|now]; cbn [Widgets.ui_step].
      * apply IH.
        now destruct (update_labels_immediate_ready format_1f data labels Hr)
          as (_ & H2 & _).
      * destruct (update_time_label_ready start_time now labels Hr)
          as (labels' & -> & H2 & _).
        now apply IH.
Qed.

(** ** What the labels show *)

Section LabelsShown.
Import Widgets.
Context (format_1f : Q -> str) (start_time : Q).

Lemma run_ui_snoc evs e (labels : gmap string QLabel) :
  run_ui format_1f start_time (evs ++ [e]) labels
  = match run_ui format_1f start_time evs labels with
    | Some labels' => ui_step format_1f start_time e labels'
    | None => None
    end.
Proof.
  revert labels. induction evs as [|e' evs IH]; intros labels.
  - cbn [app run_ui]. now destruct (ui_step _ _ e labels).
  - cbn [app run_ui]. destruct (ui_step _ _ e' labels); [apply IH|reflexivity].
Qed.

Lemma last_sample_snoc evs e :
  last_sample (evs ++ [e])
  = match e with Sample d => Some d | Timer _ => last_sample evs end.
Proof.
  induction evs as [|e' evs IH].
  - now destruct e.
  - cbn [app last_sample]. rewrite IH. destruct e; [reflexivity|].
    reflexivity.
Qed.

Lemma last_timer_snoc evs e :
  last_timer (evs ++ [e])
  = match e with Timer now => Some now | Sample _ => last_timer evs end.
Proof.
  induction evs as [|e' evs IH].
  - now destruct e.
  - cbn [app last_timer]. rewrite IH. destruct e; reflexivity.
Qed.

(** The statements of a sample leave the clock label alone, and those of
    the timer leave the other seven alone. *)
Lemma sample_keeps_time data l :
  apply_ops "time" (label_statements format_1f data) l = l.
Proof. reflexivity. Qed.

Lemma timer_keeps_data t k l :
  k ∈ data_keys -> apply_ops k [setText "time" t] l = l.
Proof.
  unfold data_keys. intros H.
  repeat (apply elem_of_cons in H; destruct H as [->|H]; [reflexivity|]).
  inversion H.
Qed.

Lemma shown_keys data k l : (k, l) ∈ shown format_1f data -> k ∈ data_keys.
Proof.
  unfold shown, data_keys. intros H.
  repeat (apply elem_of_cons in H;
          destruct H as [H|H];
          [injection H as -> _;
           repeat (first [apply list_elem_of_here | apply list_elem_of_further])|]).
  inversion H.
Qed.

Lemma sample_sets data k l l0 :
  (k, l) ∈ shown format_1f data ->
  apply_ops k (label_statements format_1f data) l0 = l.
Proof.
  unfold shown. intros H.
  repeat (apply elem_of_cons in H;
          destruct H as [H|H]; [injection H as -> ->; reflexivity|]).
  inversion H.
Qed.

Lemma data_keys_all k : k ∈ data_keys -> k ∈ all_keys.
Proof.
  unfold data_keys, all_keys. intros H.
  repeat (apply elem_of_cons in H;
          destruct H as [->|H];
          [repeat (first [apply list_elem_of_here | apply list_elem_of_further])|]).
  inversion H.
Qed.
End LabelsShown.

(** X18.  The labels show the latest sample and the latest reading of the
    timer, whatever came before: after any run of samples and timer ticks
    from [setup_labels], each of the seven data labels has the text and the
    style of the last sample (its first text and style when there was
    none), and the clock label has the elapsed time of the last tick
    (["00:00"] when there was none) in the style it was given first. *)
Theorem labels_show_latest (format_1f : Q -> str) (start_time : Q)
    (evs : list Widgets.ui_event) :
  exists labels',
    Widgets.run_ui format_1f start_time evs Widgets.setup_labels
    = Some labels'
    /\ ready labels'
    /\ match Widgets.last_sample evs with
       | Some data =>
           forall k l, (k, l) ∈ shown format_1f data -> labels' !! k = Some l
       | None =>
           forall k, k ∈ Widgets.data_keys ->
                     labels' !! k = Widgets.setup_labels !! k
       end
    /\ labels' !! ("time" : string)
       = Some {| Widgets.text :=
                   lit "Tiempo Transcurrido: "
                   ++ match Widgets.last_timer evs with
                      | Some now => time_str now start_time
                      | None => lit "00:00"
                      end;
                 Widgets.styleSheet := Widgets.label_style |}.
Proof.
  induction evs as [|e evs IH] using rev_ind.
  - exists Widgets.setup_labels.
    split; [reflexivity|]. split; [apply setup_labels_ready|].
    split; [intros k _; reflexivity|reflexivity].
  - destruct IH as (labels & Hrun & Hr & Hdata & Htime).
    rewrite run_ui_snoc, Hrun, last_sample_snoc, last_timer_snoc.
    destruct e as [data|now]; cbn [Widgets.ui_step].
    + destruct (update_labels_immediate_ready format_1f data labels Hr)
        as (_ & Hr' & Hlook).
      eexists. split; [reflexivity|]. split; [exact Hr'|]. split.
      * intros k l Hkl. rewrite Hlook.
        destruct (ready_lookup labels k Hr) as [l0 ->].
        { eapply data_keys_all, shown_keys, Hkl. }
        cbn [fmap option_fmap option_map]. f_equal.
        now apply sample_sets.
      * rewrite Hlook, Htime. cbn [fmap option_fmap option_map].
        now rewrite sample_keeps_time.
    + destruct (update_time_label_ready start_time now labels Hr)
        as (labels' & Hrun' & Hr' & Hlook).
      exists labels'. split; [exact Hrun'|]. split; [exact Hr'|].
      assert (Hkeep : forall k, k ∈ Widgets.data_keys ->
                                labels' !! k = labels !! k).
      { intros k Hk. rewrite Hlook.
        destruct (ready_lookup labels k Hr (data_keys_all k Hk)) as [l0 ->].
        cbn [fmap option_fmap option_map]. f_equal.
        now apply timer_keeps_data. }
      split.
      * destruct (Widgets.last_sample evs) as [data|].
        -- intros k l Hkl. rewrite Hkeep; [now apply Hdata|].
           eapply shown_keys, Hkl.
        -- intros k Hk. rewrite Hkeep; [now apply Hdata|exact Hk].
      * rewrite Hlook, Htime. reflexivity.
Qed.
